(** * The synthesizer-agent route of the 10k application

    A shallow embedding of [src/app/api/synthesizer-agent/route.ts]: the
    document index built from the rows of [Meta.csv], the keyword prefilter,
    the validation of the selector model's answer, the resolution of the
    chosen indices to documents and the final response of [POST].

    Strings are sequences of code units; the code units modelled are those
    below 256, carried by [ascii].  Numbers are the integers and the other
    values a JavaScript number can take.  Exceptions are a [Result]. *)

From Stdlib Require Import String Ascii List ZArith NArith Bool Arith Lia.
From Stdlib Require Import Sorting.Sorted Sorting.Permutation DecimalString.
Import ListNotations.

Set Warnings "-register-all".
Local Open Scope string_scope.
Local Open Scope list_scope.

(** ** Exceptions *)

Inductive Error : Type :=
| TypeError
| SyntaxError
| HostError (what : string).

Inductive Result (A : Type) : Type :=
| Ok (a : A)
| Throw (e : Error).

Arguments Ok {A} a.
Arguments Throw {A} e.

Definition bind {A B : Type} (r : Result A) (k : A -> Result B) : Result B :=
  match r with
  | Ok a => k a
  | Throw e => Throw e
  end.

Notation "x <- r ;; k" := (bind r (fun x => k))
  (at level 61, r at next level, right associativity).

(** ** The built-ins of the language that the route calls *)

Module JS.

Definition code (c : ascii) : N := N_of_ascii c.

Definition in_range (lo hi : N) (c : ascii) : bool :=
  ((lo <=? code c) && (code c <=? hi))%N.

(** The class [\w] of a regular expression: [A-Za-z0-9_]. *)
Definition is_word_char (c : ascii) : bool :=
  in_range 48 57 c || in_range 65 90 c || (code c =? 95)%N || in_range 97 122 c.

(** White space and line terminators, as [String.prototype.trim] strips
    them: TAB, LF, VT, FF, CR, SP and NBSP. *)
Definition is_white_space (c : ascii) : bool :=
  in_range 9 13 c || (code c =? 32)%N || (code c =? 160)%N.

(** The lower-case mapping of one code unit: [A-Z], and the capital
    letters U+00C0 to U+00DE but for the multiplication sign. *)
Definition lower_char (c : ascii) : ascii :=
  if in_range 65 90 c || (in_range 192 222 c && negb (code c =? 215)%N)
  then ascii_of_N (code c + 32)
  else c.

(** [s.toLowerCase()], one code unit at a time.  Code units from 256 on are
    outside these strings; among them lower-casing can bring in a word
    character (U+212A becomes [k]), which no code unit below 256 does. *)
Fixpoint toLowerCase (s : string) : string :=
  match s with
  | EmptyString => EmptyString
  | String c r => String (lower_char c) (toLowerCase r)
  end.

(** [hay.includes(needle)] *)
Fixpoint includes (hay needle : string) : bool :=
  String.prefix needle hay
  || match hay with
     | EmptyString => false
     | String _ r => includes r needle
     end.

(** [s.slice(0, n)] for a count [n]. *)
Fixpoint slice0 (n : nat) (s : string) : string :=
  match n, s with
  | S n', String c r => String c (slice0 n' r)
  | _, _ => EmptyString
  end.

Fixpoint trimStart (s : string) : string :=
  match s with
  | EmptyString => EmptyString
  | String c r => if is_white_space c then trimStart r else s
  end.

Fixpoint trimEnd (s : string) : string :=
  match s with
  | EmptyString => EmptyString
  | String c r =>
      match trimEnd r with
      | EmptyString => if is_white_space c then EmptyString else String c EmptyString
      | r' => String c r'
      end
  end.

Definition trim (s : string) : string := trimEnd (trimStart s).

(** [s.split(/\W+/)]: the pieces between the maximal runs of characters
    outside [\w]; a run at either end leaves an empty piece there.
    [cur] is the piece being read, [in_sep] says the previous character
    belonged to a separator run. *)
Fixpoint split_W_from (cur : string) (in_sep : bool) (s : string) : list string :=
  match s with
  | EmptyString => [cur]
  | String c r =>
      if is_word_char c then split_W_from (cur ++ String c EmptyString) false r
      else if in_sep then split_W_from cur true r
      else cur :: split_W_from EmptyString true r
  end.

Definition split_W (s : string) : list string := split_W_from EmptyString false s.

(** [Boolean(s)] for a string: the empty string is the falsy one. *)
Definition truthy (s : string) : bool := negb (s =? EmptyString).

(** [l.join(sep)] for an array of strings. *)
Definition join (sep : string) (l : list string) : string := String.concat sep l.

(** [`${n}`] for an array position or a length. *)
Definition decimal (n : nat) : string := NilZero.string_of_uint (Nat.to_uint n).

Definition LF : string := String (ascii_of_N 10) EmptyString.

(** [l.map((x, i) => f x i)] *)
Fixpoint mapi_from {A B : Type} (i : nat) (f : A -> nat -> B) (l : list A) : list B :=
  match l with
  | [] => []
  | x :: r => f x i :: mapi_from (S i) f r
  end.

Definition mapi {A B : Type} (f : A -> nat -> B) (l : list A) : list B :=
  mapi_from 0 f l.

(** [l.slice(0, e)] for an integer [e]: a negative [e] counts from the end. *)
Definition array_slice0 {A : Type} (e : Z) (l : list A) : list A :=
  if (e <? 0)%Z
  then firstn (Z.to_nat (Z.max (Z.of_nat (length l) + e) 0)) l
  else firstn (Z.to_nat e) l.

(** [Array.prototype.sort] with a comparator.  The language requires the
    sort to be stable, so for a consistent comparator the outcome is the
    one stable arrangement; insertion from the right computes it: an
    element moves behind [y] only when [cmp x y > 0]. *)
Fixpoint sort_insert {A : Type} (cmp : A -> A -> Z) (x : A) (l : list A) : list A :=
  match l with
  | [] => [x]
  | y :: r => if (0 <? cmp x y)%Z then y :: sort_insert cmp x r else x :: y :: r
  end.

Fixpoint sort {A : Type} (cmp : A -> A -> Z) (l : list A) : list A :=
  match l with
  | [] => []
  | x :: r => sort_insert cmp x (sort cmp r)
  end.

(** [Array.from(new Set(l))] on integers: first occurrences, in order. *)
Fixpoint dedupe_seen (seen : list Z) (l : list Z) : list Z :=
  match l with
  | [] => []
  | x :: r =>
      if existsb (Z.eqb x) seen then dedupe_seen seen r
      else x :: dedupe_seen (x :: seen) r
  end.

Definition dedupe (l : list Z) : list Z := dedupe_seen [] l.

End JS.

(** ** Types of the route *)

(** A row of the parsed CSV; a column the file lacks reads as [undefined]. *)
Record Row : Type := { Path : option string; Content : option string }.

Record PathDoc : Type := {
  path : string;
  contents : list string;
  preview : string
}.

Record Candidate : Type := { idx : nat; doc : PathDoc; s : Z }.

Definition MAX_QUESTION_LEN : nat := 1000.
Definition PREFILTER_TOP_K : Z := 50.
Definition MAX_SELECTED : nat := 4.

(** ** Load and index the CSV *)

(** [r.Path || ''] *)
Definition or_empty (v : option string) : string :=
  match v with
  | Some x => x
  | None => EmptyString
  end.

(** The [Map<string, string[]>] of the loader, in insertion order. *)
Definition PathMap : Type := list (string * list string).

Fixpoint map_has (m : PathMap) (k : string) : bool :=
  match m with
  | [] => false
  | (k', _) :: r => (k' =? k) || map_has r k
  end.

(** [map.get(k)!.push(c)]; the key is there, the line before sets it. *)
Fixpoint map_push (m : PathMap) (k : string) (c : string) : PathMap :=
  match m with
  | [] => []
  | (k', cs) :: r => if k' =? k then (k', cs ++ [c]) :: r else (k', cs) :: map_push r k c
  end.

(** One turn of the loop over the rows. *)
Definition index_row (m : PathMap) (r : Row) : PathMap :=
  let path := JS.trim (or_empty (Path r)) in
  let content := JS.trim (or_empty (Content r)) in
  if negb (JS.truthy path) || negb (JS.truthy content) then m
  else
    let m1 := if negb (map_has m path) then m ++ [(path, [])] else m in
    map_push m1 path content.

Definition group_rows (rows : list Row) : PathMap := fold_left index_row rows [].

Definition doc_of_entry (e : string * list string) : PathDoc :=
  let joinedPreview := JS.slice0 500 (JS.join " " (snd e)) in
  {| path := fst e; contents := snd e; preview := joinedPreview |}.

Definition build_index (rows : list Row) : list PathDoc :=
  map doc_of_entry (group_rows rows).

(** ** Lightweight keyword scoring for the prefilter *)

Definition terms_of (query : string) : list string :=
  filter JS.truthy (JS.split_W (JS.toLowerCase query)).

Definition score (hay query : string) : Z :=
  let terms := terms_of query in
  let low := JS.toLowerCase hay in
  fold_left (fun acc t => if JS.includes low t then (acc + 1)%Z else acc) terms 0%Z.

Definition candidate_of (query : string) (d : PathDoc) (i : nat) : Candidate :=
  {| idx := i; doc := d;
     s := (score (path d) query * 2 + score (preview d) query)%Z |}.

(** The body of [topPathCandidates] once the index is loaded. *)
Definition rank_index (index : list PathDoc) (query : string) (k : Z) : list Candidate :=
  let ranked :=
    JS.sort (fun a b => (s b - s a)%Z) (JS.mapi (candidate_of query) index) in
  JS.array_slice0 (Z.min k (Z.of_nat (length ranked))) ranked.


(** ** Values the route receives from outside *)

(** A number: an integer, a finite number that is not one ([m / 2^e] with
    [m] odd), [NaN], or an infinity.  [-0] is [Int 0]. *)
Inductive Num : Type :=
| Int (z : Z)
| Dyadic (m : Z) (e : positive)
| NaN
| Infinity (negative : bool).

(** What [JSON.parse] returns.  [JObject] lists the own properties. *)
Inductive JSON : Type :=
| JNull
| JBool (b : bool)
| JNumber (n : Num)
| JString (str : string)
| JArray (items : list JSON)
| JObject (props : list (string * JSON)).

(** Built-ins whose tables are not written out here. *)
Class Platform : Type := {
  JSON_parse : string -> Result JSON;
  StringToNumber : string -> Num;
  NumberToString : Num -> string
}.

Fixpoint own_prop (props : list (string * JSON)) (k : string) : option JSON :=
  match props with
  | [] => None
  | (k', v) :: r => if k' =? k then Some v else own_prop r k
  end.

Definition has_own (props : list (string * JSON)) (k : string) : bool :=
  match own_prop props k with
  | Some _ => true
  | None => false
  end.

(** [v.k] for a name [k] that no prototype defines: [undefined] ([None])
    unless [v] is an object that owns [k]; reading from [null] throws. *)
Definition get_field (v : JSON) (k : string) : Result (option JSON) :=
  match v with
  | JNull => Throw TypeError
  | JObject props => Ok (own_prop props k)
  | _ => Ok None
  end.

(** [v?.k] *)
Definition opt_field (v : JSON) (k : string) : option JSON :=
  match v with
  | JObject props => own_prop props k
  | _ => None
  end.

(** [v ?? d] *)
Definition nullish (v : option JSON) (d : JSON) : JSON :=
  match v with
  | None | Some JNull => d
  | Some x => x
  end.

Definition Number_isInteger (n : Num) : bool :=
  match n with
  | Int _ => true
  | _ => false
  end.

Section Coercions.
Context {P : Platform}.

(** The abstract operation ToString.  An array joins its elements with
    commas, [null] elements as empty strings; an object that owns a
    [toString] property (never a function, after [JSON.parse]) cannot be
    converted. *)
Fixpoint ToString (x : JSON) : Result string :=
  match x with
  | JNull => Ok "null"
  | JBool b => Ok (if b then "true" else "false")
  | JNumber n => Ok (NumberToString n)
  | JString str => Ok str
  | JArray items =>
      (fix join_items (l : list JSON) : Result string :=
         match l with
         | [] => Ok EmptyString
         | e :: r =>
             h <- match e with JNull => Ok EmptyString | _ => ToString e end ;;
             match r with
             | [] => Ok h
             | _ => t <- join_items r ;; Ok (h ++ "," ++ t)%string
             end
         end) items
  | JObject props =>
      if has_own props "toString" then Throw TypeError else Ok "[object Object]"
  end.

(** [v.toString()] *)
Definition call_toString (v : JSON) : Result string :=
  match v with
  | JNull => Throw TypeError
  | _ => ToString v
  end.

(** [Number(x)] *)
Definition Number (x : JSON) : Result Num :=
  match x with
  | JNull => Ok (Int 0)
  | JBool b => Ok (Int (if b then 1 else 0))
  | JNumber n => Ok n
  | JString str => Ok (StringToNumber str)
  | JArray _ => str <- ToString x ;; Ok (StringToNumber str)
  | JObject props => if has_own props "toString" then Throw TypeError else Ok NaN
  end.

(** ** Safe parsing helpers *)

(** The loop of [toNumberArray]; [out] holds integers only. *)
Fixpoint toNumberArray_loop (v : list JSON) (out : list Z) : Result (list Z) :=
  match v with
  | [] => Ok out
  | x :: r =>
      n <- Number x ;;
      match n with
      | Int z => toNumberArray_loop r (out ++ [z])
      | _ => toNumberArray_loop r out
      end
  end.

Definition toNumberArray (v : option JSON) : Result (list Z) :=
  match v with
  | Some (JArray items) => toNumberArray_loop items []
  | _ => Ok []
  end.

End Coercions.

(** ** The host: configuration, the file and the completion service *)

Inductive Role : Type := system | user.

Record ChatMessage : Type := { role : Role; content : string }.

(** The parameters of [client.chat.completions.create]; both calls pass the
    same constant temperature, left out. *)
Record ChatParams : Type := {
  model : string;
  json_object : bool;
  messages : list ChatMessage
}.

Record AssistantMessage : Type := { text : option string }.
Record Choice : Type := { message : option AssistantMessage }.
Record ChatCompletion : Type := { choices : list Choice }.

(** [readMetaCsv n] is the outcome of reading and parsing [Meta.csv] when
    [n] reads came before: the rows, or the exception raised.
    [chat_create] gives the outcome of a completion call; a request makes
    its two calls once each, with different parameters. *)
Class Host : Type := {
  apiKey : option string;
  OPENAI_MODEL_SELECTOR : string;
  OPENAI_MODEL_ANSWER : string;
  SYSTEM_SELECTOR : string;
  SYSTEM_ANSWER : string;
  readMetaCsv : nat -> Result (list Row);
  chat_create : ChatParams -> Result ChatCompletion
}.

(** The module-level cache, and the count of reads of the file. *)
Record Store : Type := { PATH_INDEX : option (list PathDoc); reads : nat }.

Record Request : Type := { body_text : string }.
Record Response : Type := { status : nat; advice : string }.

Definition json (advice : string) (status : nat) : Response :=
  {| status := status; advice := advice |}.

(** [choices[0]?.message?.content] *)
Definition first_content (c : ChatCompletion) : option string :=
  match choices c with
  | [] => None
  | ch :: _ =>
      match message ch with
      | None => None
      | Some m => text m
      end
  end.

(** [ranked[i]] for a number [i] that is an integer. *)
Definition array_get {A : Type} (l : list A) (i : Z) : option A :=
  if (i <? 0)%Z then None else nth_error l (Z.to_nat i).

Definition set_has (seen : list string) (k : string) : bool :=
  existsb (String.eqb k) seen.

Section Route.
Context {P : Platform} {H : Host}.

Definition loadPathIndex (st : Store) : Result (list PathDoc) * Store :=
  match PATH_INDEX st with
  | Some index => (Ok index, st)
  | None =>
      match readMetaCsv (reads st) with
      | Throw e => (Throw e, {| PATH_INDEX := None; reads := S (reads st) |})
      | Ok rows =>
          let index := build_index rows in
          (Ok index, {| PATH_INDEX := Some index; reads := S (reads st) |})
      end
  end.

Definition topPathCandidates (query : string) (k : Z) (st : Store)
  : Result (list Candidate) * Store :=
  match loadPathIndex st with
  | (Ok index, st') => (Ok (rank_index index query k), st')
  | (Throw e, st') => (Throw e, st')
  end.

(** Build the selector prompt with enumerated candidates *)
Definition buildSelectorPrompt (question : string) (cands : list (nat * PathDoc))
  : list ChatMessage :=
  let listing :=
    JS.join (JS.LF ++ JS.LF)%string
      (JS.mapi (fun c i =>
         ("#" ++ JS.decimal (i + 1) ++ JS.LF
          ++ "path: " ++ path (snd c) ++ JS.LF
          ++ "preview: " ++ preview (snd c))%string) cands) in
  [ {| role := system; content := SYSTEM_SELECTOR |};
    {| role := user;
       content := ("QUESTION: " ++ question ++ JS.LF ++ JS.LF
                   ++ "CANDIDATE PATHS:" ++ JS.LF ++ listing)%string |} ].

(** Build the answer prompt with the full content per selected path *)
Definition buildAnswerPrompt (question : string) (pickedDocs : list PathDoc)
  : list ChatMessage :=
  let ctxBlocks :=
    map (fun d =>
           let full := JS.join (JS.LF ++ JS.LF)%string (contents d) in
           ("[" ++ path d ++ "]" ++ JS.LF ++ full)%string) pickedDocs in
  let ctx := JS.join (JS.LF ++ JS.LF)%string ctxBlocks in
  [ {| role := system; content := SYSTEM_ANSWER |};
    {| role := user;
       content := ("Question: " ++ question ++ JS.LF ++ JS.LF
                   ++ "Context:" ++ JS.LF ++ ctx)%string |} ].

(** [selector.choices[0]?.message?.content || "{}"] *)
Definition raw_of (selector : ChatCompletion) : string :=
  match first_content selector with
  | Some c => if JS.truthy c then c else "{}"
  | None => "{}"
  end.

(** Parse the selection: an exception of [JSON.parse] leaves [{}]. *)
Definition parse_payload (selector : ChatCompletion) : JSON :=
  match JSON_parse (raw_of selector) with
  | Ok v => v
  | Throw _ => JObject []
  end.

(** [selected], [unique] and [chosenIdxes] *)
Definition in_candidates (len : nat) (n : Z) : bool :=
  ((1 <=? n) && (n <=? Z.of_nat len))%Z.

Definition unique_of (len : nat) (nums : list Z) : list Z :=
  let selected := filter (in_candidates len) nums in
  firstn MAX_SELECTED (JS.dedupe selected).

Definition chosenIdxes (len : nat) (nums : list Z) : list Z :=
  let unique := unique_of len nums in
  if (0 <? length unique)%nat then unique
  else JS.array_slice0 (Z.min 3 (Z.of_nat len)) [1; 2; 3]%Z.

(** Pull the documents of the chosen candidates: the loop over
    [chosenIdxes], with [seen] and [pickedDocs] as they stand. *)
Fixpoint pick_loop (ranked : list Candidate) (chosen : list Z)
    (seen : list string) (pickedDocs : list PathDoc) : Result (list PathDoc) :=
  match chosen with
  | [] => Ok pickedDocs
  | oneBased :: rest =>
      match array_get ranked (oneBased - 1) with
      | None => Throw TypeError
      | Some c =>
          let d := doc c in
          let fresh := negb (set_has seen (path d)) in
          let seen' := if fresh then path d :: seen else seen in
          let picked' := if fresh then pickedDocs ++ [d] else pickedDocs in
          if (MAX_SELECTED <=? length picked')%nat then Ok picked'
          else pick_loop ranked rest seen' picked'
      end
  end.

(** From the parsed payload to the picked documents. *)
Definition select_docs (payload : JSON) (ranked : list Candidate)
  : Result (list PathDoc) :=
  v <- get_field payload "selected_indices" ;;
  nums <- toNumberArray v ;;
  pick_loop ranked (chosenIdxes (length ranked) nums) [] [].

(** [answerResp.choices[0]?.message?.content?.trim() || ''] *)
Definition answerText_of (answerResp : ChatCompletion) : string :=
  match first_content answerResp with
  | Some c => JS.trim c
  | None => EmptyString
  end.

(** Pretty sources: numbered and bold. *)
Definition sources_of (pickedDocs : list PathDoc) : string :=
  JS.join JS.LF
    (JS.mapi (fun d i => (JS.decimal (i + 1) ++ ". **" ++ path d ++ "**")%string) pickedDocs).

Definition advice_of (answerText : string) (pickedDocs : list PathDoc) : string :=
  (answerText ++ JS.LF ++ JS.LF ++ "Sources:" ++ JS.LF ++ sources_of pickedDocs)%string.

Definition selector_params (question : string) (ranked : list Candidate) : ChatParams :=
  {| model := OPENAI_MODEL_SELECTOR; json_object := true;
     messages := buildSelectorPrompt question (map (fun c => (idx c, doc c)) ranked) |}.

Definition answer_params (question : string) (pickedDocs : list PathDoc) : ChatParams :=
  {| model := OPENAI_MODEL_ANSWER; json_object := false;
     messages := buildAnswerPrompt question pickedDocs |}.

(** The route from the ranked candidates on. *)
Definition answer_from (question : string) (ranked : list Candidate) : Result Response :=
  if (length ranked =? 0)%nat then
    Ok (json "No content available yet. Ensure public/data/meta.csv exists with Path and Content rows." 200)
  else
    selector <- chat_create (selector_params question ranked) ;;
    pickedDocs <- select_docs (parse_payload selector) ranked ;;
    answerResp <- chat_create (answer_params question pickedDocs) ;;
    Ok (json (advice_of (answerText_of answerResp) pickedDocs) 200).

(** [userScenario.slice(0, MAX_QUESTION_LEN).trim()] *)
Definition question_of (userScenario : string) : string :=
  JS.trim (JS.slice0 MAX_QUESTION_LEN userScenario).

(** [(body?.userScenario ?? '').toString()], where a rejected
    [req.json()] leaves [{}] for the body. *)
Definition userScenario_of (req : Request) : Result string :=
  let body :=
    match JSON_parse (body_text req) with
    | Ok b => b
    | Throw _ => JObject []
    end in
  call_toString (nullish (opt_field body "userScenario") (JString EmptyString)).

(** [!apiKey], the guard at the head of [POST].  The module also builds its
    client from the key when it is loaded, before any request; that step is
    not part of [POST] and is not modelled, so the properties of a request
    that passes the guard are stated under [apiKey_missing = false]. *)
Definition apiKey_missing : bool :=
  match apiKey with
  | Some k => negb (JS.truthy k)
  | None => true
  end.

(** The body of the [try] of [POST].  The arrows of the first advisory are
    kept as the bytes of the source file. *)
Definition POST_try (req : Request) (st : Store) : Result Response * Store :=
  if apiKey_missing then
    (Ok (json "OPENAI_API_KEY is missing. Set it in Vercel → Project Settings → Environment Variables." 500), st)
  else
    match userScenario_of req with
    | Throw e => (Throw e, st)
    | Ok userScenario =>
        let question := question_of userScenario in
        if negb (JS.truthy question) then
          (Ok (json "Please provide a question." 400), st)
        else
          match topPathCandidates question PREFILTER_TOP_K st with
          | (Throw e, st') => (Throw e, st')
          | (Ok ranked, st') => (answer_from question ranked, st')
          end
    end.

Definition POST (req : Request) (st : Store) : Response * Store :=
  match POST_try req st with
  | (Ok resp, st') => (resp, st')
  | (Throw _, st') =>
      (json "Server error while generating answer. Check logs & environment variables." 500, st')
  end.

End Route.

(** ** The specification's wording, for comparison *)

Fixpoint distinct_seen (seen : list string) (l : list string) : list string :=
  match l with
  | [] => []
  | x :: r =>
      if set_has seen x then distinct_seen seen r
      else x :: distinct_seen (x :: seen) r
  end.

(** The list without its repetitions, first occurrences kept. *)
Definition distinct (l : list string) : list string := distinct_seen [] l.

(** The number of tokens of the query, each occurrence counted, that the
    lower-cased text contains. *)
Definition termHits (hay query : string) : Z :=
  Z.of_nat (length (filter (JS.includes (JS.toLowerCase hay)) (terms_of query))).

(** The specification's count: the distinct tokens that the text contains. *)
Definition spec_termHits (hay query : string) : Z :=
  Z.of_nat (length (filter (JS.includes (JS.toLowerCase hay)) (distinct (terms_of query)))).

(** The specification's question: trimmed first, then truncated. *)
Definition spec_question (userScenario : string) : string :=
  JS.slice0 MAX_QUESTION_LEN (JS.trim userScenario).

(** A row takes part in the index when its trimmed path and content are
    both non-empty. *)
Definition row_path (r : Row) : string := JS.trim (or_empty (Path r)).
Definition row_content (r : Row) : string := JS.trim (or_empty (Content r)).
Definition row_usable (r : Row) : bool :=
  JS.truthy (row_path r) && JS.truthy (row_content r).

(** The trimmed contents of the usable rows filed under the path [k], in
    the order of the rows. *)
Definition fragments_of (rows : list Row) (k : string) : list string :=
  map row_content (filter (fun r => row_usable r && (k =? row_path r)) rows).

Definition usable_paths (rows : list Row) : list string :=
  map row_path (filter row_usable rows).

(** The grouping said in one piece: the distinct paths of the usable rows,
    in order of first appearance, each with its fragments. *)
Definition group_spec (rows : list Row) : PathMap :=
  map (fun k => (k, fragments_of rows k)) (distinct (usable_paths rows)).

(** The order of the ranked candidates: a higher score first and, at equal
    scores, the earlier position in the index first. *)
Definition ranks_before (a b : Candidate) : Prop :=
  (s a > s b)%Z \/ (s a = s b /\ idx a < idx b).

(** Each candidate carries the document at its position and the score
    computed from that document. *)
Definition scored_from (index : list PathDoc) (query : string) (c : Candidate) : Prop :=
  nth_error index (idx c) = Some (doc c)
  /\ s c = (2 * termHits (path (doc c)) query + termHits (preview (doc c)) query)%Z.

(** What the loop keeps true of [seen] and [pickedDocs]. *)
Definition loop_invariant (ranked : list Candidate) (seen : list string)
    (pickedDocs : list PathDoc) : Prop :=
  (forall p, In p seen <-> In p (map path pickedDocs))
  /\ NoDup (map path pickedDocs)
  /\ incl pickedDocs (map doc ranked).

(** ** The message input of the page *)

(** [submit] of [MessageInput] with the field holding [text]: the value
    handed to [onSend], if any, and the field afterwards. *)
Definition submit (text : string) : option string * string :=
  let value := JS.trim text in
  if negb (JS.truthy value) then (None, text)
  else (Some value, EmptyString).

(** ** Vocabulary of the further properties *)

(** The values that [ToString] and [Number] convert without an exception:
    no object that owns a [toString] property, at any depth of arrays. *)
Fixpoint convertible (x : JSON) : bool :=
  match x with
  | JArray items => forallb convertible items
  | JObject props => negb (has_own props "toString")
  | _ => true
  end.

(** The integers among some numbers, in order. *)
Definition ints_of (ns : list Num) : list Z :=
  flat_map (fun n => match n with Int z => [z] | _ => [] end) ns.

(** The documents of the candidates at the 1-based positions [idxs]. *)
Definition docs_at (ranked : list Candidate) (idxs : list Z) : list PathDoc :=
  flat_map (fun n => match array_get ranked (n - 1) with
                     | Some c => [doc c]
                     | None => []
                     end) idxs.

Fixpoint all_chars (p : ascii -> bool) (str : string) : bool :=
  match str with
  | EmptyString => true
  | String c r => p c && all_chars p r
  end.

(** The characters [a-z0-9_]. *)
Definition token_char (c : ascii) : bool :=
  JS.is_word_char c && negb (JS.in_range 65 90 c).

(** A string with no white space at either end. *)
Definition trimmed (str : string) : Prop := JS.trim str = str.

(** The number of fragments the documents hold. *)
Definition fragment_count (index : list PathDoc) : nat :=
  list_sum (map (fun d => length (contents d)) index).

(** The number of fragments a grouping holds. *)
Definition map_total (m : PathMap) : nat :=
  list_sum (map (fun e => length (snd e)) m).

(** The block of one document in the answer context. *)
Definition context_block (d : PathDoc) : string :=
  ("[" ++ path d ++ "]" ++ JS.LF ++ JS.join (JS.LF ++ JS.LF) (contents d))%string.

(** The entry of one candidate in the selector listing, at position [i]. *)
Definition listing_entry (i : nat) (d : PathDoc) : string :=
  ("#" ++ JS.decimal (i + 1) ++ JS.LF
   ++ "path: " ++ path d ++ JS.LF
   ++ "preview: " ++ preview d)%string.

(** ** Concrete values for the examples *)

Module Demo.

Definition DQ : string := String (ascii_of_N 34) EmptyString.

(** [{"selected_indices": "not-an-array"}] *)
Definition not_an_array_body : string :=
  ("{" ++ DQ ++ "selected_indices" ++ DQ ++ ": " ++ DQ ++ "not-an-array" ++ DQ ++ "}")%string.

(** [{"selected_indices":[{"toString":1}]}] *)
Definition odd_object_body : string :=
  ("{" ++ DQ ++ "selected_indices" ++ DQ ++ ":[{" ++ DQ ++ "toString" ++ DQ ++ ":1}]}")%string.

(** [{"selected_indices":[2,2,9,1]}] *)
Definition picks_body : string :=
  ("{" ++ DQ ++ "selected_indices" ++ DQ ++ ":[2,2,9,1]}")%string.

(** [{"userScenario":"q"}] for a [q] that needs no escape. *)
Definition request_body (q : string) : string :=
  ("{" ++ DQ ++ "userScenario" ++ DQ ++ ":" ++ DQ ++ q ++ DQ ++ "}")%string.

(** [JSON.parse] on the bodies the examples use; the other bodies of the
    examples are not JSON. *)
Definition parse_table (body : string) : Result JSON :=
  if body =? "{}" then Ok (JObject [])
  else if body =? "null" then Ok JNull
  else if body =? not_an_array_body then
    Ok (JObject [("selected_indices", JString "not-an-array")])
  else if body =? odd_object_body then
    Ok (JObject [("selected_indices", JArray [JObject [("toString", JNumber (Int 1))]])])
  else if body =? request_body "hardware revenue" then
    Ok (JObject [("userScenario", JString "hardware revenue")])
  else if body =? request_body "  hardware revenue " then
    Ok (JObject [("userScenario", JString "  hardware revenue ")])
  else if body =? picks_body then
    Ok (JObject [("selected_indices",
                  JArray [JNumber (Int 2); JNumber (Int 2); JNumber (Int 9); JNumber (Int 1)])])
  else Throw SyntaxError.

(** The conversions on the values the examples use: the empty string is
    [0], a string that is no numeral is [NaN], integers print in decimal.
    The examples convert no numeral string and print no fraction. *)
Definition platform : Platform := {|
  JSON_parse := parse_table;
  StringToNumber := fun str => if str =? EmptyString then Int 0 else NaN;
  NumberToString := fun n =>
    match n with
    | Int z => NilZero.string_of_int (Z.to_int z)
    | Dyadic _ _ => "0.5"
    | NaN => "NaN"
    | Infinity neg => if neg then "-Infinity" else "Infinity"
    end
|}.

Definition row (p c : string) : Row := {| Path := Some p; Content := Some c |}.

Definition rows : list Row :=
  [ row "Item 1 Business" "the company sells hardware";
    row "Item 7 MD&A" "revenue grew due to hardware demand" ].

Definition doc1 : PathDoc :=
  {| path := "Item 1 Business";
     contents := ["the company sells hardware"];
     preview := "the company sells hardware" |}.

Definition doc2 : PathDoc :=
  {| path := "Item 7 MD&A";
     contents := ["revenue grew due to hardware demand"];
     preview := "revenue grew due to hardware demand" |}.

Definition completion (body : option string) : ChatCompletion :=
  {| choices := [ {| message := Some {| text := body |} |} ] |}.

(** A host whose selector model answers [selector_body] and whose answer
    model answers a fixed sentence. *)
Definition host (key : option string) (selector_body : option string) : Host := {|
  apiKey := key;
  OPENAI_MODEL_SELECTOR := "gpt-4o-mini";
  OPENAI_MODEL_ANSWER := "gpt-4o-mini";
  SYSTEM_SELECTOR := "You are a financial 10-K analyzer.";
  SYSTEM_ANSWER := "You are a rigorous financial 10-K assistant.";
  readMetaCsv := fun _ => Ok rows;
  chat_create := fun p =>
    if json_object p then Ok (completion selector_body)
    else Ok (completion (Some " Hardware drives revenue. "))
|}.

(** A host whose file cannot be read and whose service is down. *)
Definition unreadable : Host := {|
  apiKey := Some "sk-test";
  OPENAI_MODEL_SELECTOR := "gpt-4o-mini";
  OPENAI_MODEL_ANSWER := "gpt-4o-mini";
  SYSTEM_SELECTOR := "You are a financial 10-K analyzer.";
  SYSTEM_ANSWER := "You are a rigorous financial 10-K assistant.";
  readMetaCsv := fun _ => Throw (HostError "ENOENT");
  chat_create := fun _ => Throw (HostError "unreachable")
|}.

(** A host whose file holds no usable row: a path with a blank content and
    a content with no path. *)
Definition blank_file : Host := {|
  apiKey := Some "sk-test";
  OPENAI_MODEL_SELECTOR := "gpt-4o-mini";
  OPENAI_MODEL_ANSWER := "gpt-4o-mini";
  SYSTEM_SELECTOR := "You are a financial 10-K analyzer.";
  SYSTEM_ANSWER := "You are a rigorous financial 10-K assistant.";
  readMetaCsv := fun _ => Ok [row "Item 1 Business" "   "; row EmptyString "orphan text"];
  chat_create := fun _ => Throw (HostError "unreachable")
|}.

Definition cold : Store := {| PATH_INDEX := None; reads := 0 |}.

Definition ask (q : string) : Request :=
  {| body_text := request_body q |}.

Fixpoint spaces (n : nat) : string :=
  match n with
  | O => EmptyString
  | S n' => String " " (spaces n')
  end.

End Demo.

(** * Properties *)

(** ** Lists and the built-ins *)

Section ListFacts.
Context {A : Type}.

Lemma Forall_firstn (Q : A -> Prop) (n : nat) (l : list A) :
  Forall Q l -> Forall Q (firstn n l).
Proof.
  intros HQ. revert n. induction HQ as [|x l Hx _ IH]; intros [|n]; simpl; auto.
Qed.

Lemma StronglySorted_firstn (R : A -> A -> Prop) (n : nat) (l : list A) :
  StronglySorted R l -> StronglySorted R (firstn n l).
Proof.
  intros HS. revert n.
  induction HS as [|x l _ IH Hx]; intros [|n]; simpl; try constructor; auto.
  now apply Forall_firstn.
Qed.

Lemma array_slice0_prefix (e : Z) (l : list A) :
  exists n, JS.array_slice0 e l = firstn n l.
Proof. unfold JS.array_slice0. destruct (e <? 0)%Z; eauto. Qed.

Lemma array_slice0_count (k : nat) (l : list A) :
  JS.array_slice0 (Z.of_nat k) l = firstn k l.
Proof.
  unfold JS.array_slice0.
  destruct (Z.ltb_spec (Z.of_nat k) 0); [lia|]. now rewrite Nat2Z.id.
Qed.

Lemma sort_insert_Forall (Q : A -> Prop) cmp (x : A) (l : list A) :
  Q x -> Forall Q l -> Forall Q (JS.sort_insert cmp x l).
Proof.
  intros Hx HQ. induction HQ as [|y l Hy HQ IH]; simpl.
  - now constructor.
  - destruct (0 <? cmp x y)%Z; repeat constructor; assumption.
Qed.

Lemma sort_Forall (Q : A -> Prop) cmp (l : list A) :
  Forall Q l -> Forall Q (JS.sort cmp l).
Proof.
  induction 1 as [|x l Hx _ IH]; simpl; [constructor|].
  now apply sort_insert_Forall.
Qed.

Lemma sort_insert_length cmp (x : A) (l : list A) :
  length (JS.sort_insert cmp x l) = S (length l).
Proof.
  induction l as [|y l IH]; simpl; [reflexivity|].
  destruct (0 <? cmp x y)%Z; simpl; auto.
Qed.

Lemma sort_length cmp (l : list A) : length (JS.sort cmp l) = length l.
Proof.
  induction l as [|x l IH]; simpl; [reflexivity|].
  now rewrite sort_insert_length, IH.
Qed.

End ListFacts.

Lemma mapi_from_Forall {A B : Type} (Q : B -> Prop) (f : A -> nat -> B) (l : list A) :
  forall i, (forall x j, Q (f x j)) -> Forall Q (JS.mapi_from i f l).
Proof. induction l as [|x l IH]; intros i HQ; simpl; constructor; auto. Qed.

Lemma mapi_from_length {A B : Type} (f : A -> nat -> B) (l : list A) :
  forall i, length (JS.mapi_from i f l) = length l.
Proof. induction l as [|x l IH]; intros i; simpl; auto. Qed.

(** ** The score *)

Lemma count_loop (p : string -> bool) (terms : list string) :
  forall acc : Z,
    fold_left (fun a t => if p t then (a + 1)%Z else a) terms acc
    = (acc + Z.of_nat (length (filter p terms)))%Z.
Proof.
  induction terms as [|t terms IH]; intros acc; simpl.
  - lia.
  - rewrite IH. destruct (p t); simpl length; lia.
Qed.

Lemma score_termHits (hay query : string) : score hay query = termHits hay query.
Proof. unfold score, termHits. now rewrite count_loop. Qed.

Lemma score_nonneg (hay query : string) : (0 <= score hay query)%Z.
Proof. rewrite score_termHits. unfold termHits. lia. Qed.

(** ** The ranking *)

Lemma ranks_before_insert (x : Candidate) (l : list Candidate) :
  Forall (fun y => idx x < idx y) l ->
  StronglySorted ranks_before l ->
  StronglySorted ranks_before (JS.sort_insert (fun a b => (s b - s a)%Z) x l).
Proof.
  intros Hidx HS. induction HS as [|y l HS IH Hy]; simpl.
  - repeat constructor.
  - inversion Hidx as [|? ? Hxy Hxl]; subst.
    destruct (Z.ltb_spec 0 (s y - s x)) as [Hlt|Hge].
    + constructor; [now apply IH|].
      apply sort_insert_Forall; [|exact Hy].
      left. lia.
    + assert (Hx : ranks_before x y) by (unfold ranks_before; lia).
      constructor; [now constructor|].
      constructor; [exact Hx|].
      rewrite Forall_forall in *. intros z Hz.
      specialize (Hy z Hz). specialize (Hxl z Hz).
      unfold ranks_before in *. lia.
Qed.

Lemma ranks_before_sort (l : list Candidate) :
  StronglySorted (fun a b => idx a < idx b) l ->
  StronglySorted ranks_before (JS.sort (fun a b => (s b - s a)%Z) l).
Proof.
  induction 1 as [|x l HS IH Hx]; simpl.
  - constructor.
  - apply ranks_before_insert; [|exact IH].
    now apply sort_Forall.
Qed.

Lemma mapi_from_positions (query : string) (index : list PathDoc) :
  forall i,
    StronglySorted (fun a b => idx a < idx b) (JS.mapi_from i (candidate_of query) index)
    /\ Forall (fun c => i <= idx c) (JS.mapi_from i (candidate_of query) index).
Proof.
  induction index as [|d index IH]; intros i; simpl.
  - split; constructor.
  - destruct (IH (S i)) as [HS HF]. split.
    + constructor; [exact HS|].
      eapply Forall_impl; [|exact HF]. simpl. intros c Hc. lia.
    + constructor; [simpl; lia|].
      eapply Forall_impl; [|exact HF]. simpl. intros c Hc. lia.
Qed.

Lemma mapi_from_scored (query : string) (pre index : list PathDoc) :
  Forall (scored_from (pre ++ index) query)
    (JS.mapi_from (length pre) (candidate_of query) index).
Proof.
  revert pre. induction index as [|d index IH]; intros pre; simpl.
  - constructor.
  - constructor.
    + split; cbn [candidate_of idx doc s].
      * rewrite nth_error_app2 by lia. now rewrite Nat.sub_diag.
      * rewrite !score_termHits. lia.
    + specialize (IH (pre ++ [d])).
      rewrite <- app_assoc, length_app in IH. simpl in IH.
      now rewrite Nat.add_1_r in IH.
Qed.

Lemma rank_index_Forall (Q : Candidate -> Prop) index query k :
  Forall Q (JS.mapi (candidate_of query) index) -> Forall Q (rank_index index query k).
Proof.
  intros HQ. unfold rank_index.
  destruct (array_slice0_prefix
              (Z.min k (Z.of_nat (length (JS.sort (fun a b => (s b - s a)%Z)
                                            (JS.mapi (candidate_of query) index)))))
              (JS.sort (fun a b => (s b - s a)%Z) (JS.mapi (candidate_of query) index)))
    as [n ->].
  apply Forall_firstn. now apply sort_Forall.
Qed.

Lemma rank_index_sorted index query k :
  StronglySorted ranks_before (rank_index index query k).
Proof.
  unfold rank_index.
  destruct (array_slice0_prefix
              (Z.min k (Z.of_nat (length (JS.sort (fun a b => (s b - s a)%Z)
                                            (JS.mapi (candidate_of query) index)))))
              (JS.sort (fun a b => (s b - s a)%Z) (JS.mapi (candidate_of query) index)))
    as [n ->].
  apply StronglySorted_firstn, ranks_before_sort.
  apply (mapi_from_positions query index 0).
Qed.

Lemma rank_index_scored index query k :
  Forall (scored_from index query) (rank_index index query k).
Proof. apply rank_index_Forall. apply (mapi_from_scored query [] index). Qed.

Lemma ranks_before_ge (l : list Candidate) :
  StronglySorted ranks_before l -> StronglySorted (fun a b => (s a >= s b)%Z) l.
Proof.
  induction 1 as [|x l _ IH Hx]; constructor; auto.
  eapply Forall_impl; [|exact Hx].
  unfold ranks_before. intros c Hc. simpl in Hc. lia.
Qed.

Lemma rank_index_length index query (k : nat) :
  length (rank_index index query (Z.of_nat k)) = Nat.min k (length index).
Proof.
  unfold rank_index.
  rewrite sort_length. unfold JS.mapi. rewrite mapi_from_length.
  rewrite <- Nat2Z.inj_min, array_slice0_count, length_firstn.
  rewrite sort_length, mapi_from_length. lia.
Qed.

Lemma set_has_In (seen : list string) (k : string) :
  set_has seen k = true <-> In k seen.
Proof.
  unfold set_has. rewrite existsb_exists. split.
  - intros [x [Hx Heq]]. apply String.eqb_eq in Heq. now subst.
  - intros Hin. exists k. split; [exact Hin|apply String.eqb_refl].
Qed.

Lemma distinct_seen_NoDup (l : list string) :
  forall seen, NoDup l -> (forall x, In x l -> ~ In x seen) -> distinct_seen seen l = l.
Proof.
  induction l as [|x l IH]; intros seen Hnd Hfresh; simpl; [reflexivity|].
  inversion Hnd as [|? ? Hx Hl]; subst.
  destruct (set_has seen x) eqn:Hs.
  - apply set_has_In in Hs. exfalso. apply (Hfresh x); simpl; auto.
  - f_equal. apply IH; [exact Hl|].
    intros y Hy [Heq|Hin]; [now subst|].
    apply (Hfresh y); simpl; auto.
Qed.

(** With no token repeated in the query the two counts agree. *)
Lemma termHits_distinct (hay query : string) :
  NoDup (terms_of query) -> spec_termHits hay query = termHits hay query.
Proof.
  intros Hnd. unfold spec_termHits, termHits, distinct.
  rewrite distinct_seen_NoDup; auto.
Qed.

(** ** Claims on the prefilter *)

(** C2, as stated: with the query "hardware revenue" the document
    "Item 1 Business" would total 3, "Item 7 MD&A" would total 2, and the
    first would be ranked first.  The code gives other totals and the
    opposite order, so the statement is refuted. *)
Lemma scoring_example_as_stated_fails :
  ~ (s (candidate_of "hardware revenue" Demo.doc1 0) = 3%Z
     /\ s (candidate_of "hardware revenue" Demo.doc2 1) = 2%Z
     /\ map doc (rank_index [Demo.doc1; Demo.doc2] "hardware revenue" PREFILTER_TOP_K)
        = [Demo.doc1; Demo.doc2]).
Proof. intros [Hs _]. vm_compute in Hs. discriminate Hs. Qed.

(** C2, amended: for the two documents of the example and the query
    "hardware revenue", the path of "Item 1 Business" contains no token and
    its preview one, total 1; the path of "Item 7 MD&A" contains no token
    and its preview both, total 2; "Item 7 MD&A" is ranked first.  The two
    documents are the index built from the two rows. *)
Theorem scoring_example :
  build_index Demo.rows = [Demo.doc1; Demo.doc2]
  /\ terms_of "hardware revenue" = ["hardware"; "revenue"]
  /\ score (path Demo.doc1) "hardware revenue" = 0%Z
  /\ score (preview Demo.doc1) "hardware revenue" = 1%Z
  /\ score (path Demo.doc2) "hardware revenue" = 0%Z
  /\ score (preview Demo.doc2) "hardware revenue" = 2%Z
  /\ rank_index [Demo.doc1; Demo.doc2] "hardware revenue" PREFILTER_TOP_K
     = [ {| idx := 1; doc := Demo.doc2; s := 2 |};
         {| idx := 0; doc := Demo.doc1; s := 1 |} ].
Proof. repeat split; vm_compute; reflexivity. Qed.

(** C3, as stated: the score would count the distinct tokens of the query.
    A query that repeats a token refutes it. *)
Lemma distinct_token_count_fails :
  ~ (forall (d : PathDoc) (query : string) (i : nat),
        s (candidate_of query d i)
        = (2 * spec_termHits (path d) query + spec_termHits (preview d) query)%Z).
Proof.
  intros Hc.
  specialize (Hc {| path := "hardware"; contents := ["sales"]; preview := "sales" |}
                 "hardware hardware" 0).
  vm_compute in Hc. discriminate Hc.
Qed.

(** C3, amended: the score of every document is twice the number of query
    tokens found in the lower-cased path plus the number found in the
    lower-cased preview, where the tokens are those of the lower-cased query
    split on non-word characters, empties discarded, and every occurrence of
    a token in the query is counted; this holds for every candidate the
    prefilter returns. *)
Theorem score_counts_token_occurrences
    (index : list PathDoc) (d : PathDoc) (query : string) (i : nat) (k : Z) :
  s (candidate_of query d i)
  = (2 * termHits (path d) query + termHits (preview d) query)%Z
  /\ Forall (fun c => s c = (2 * termHits (path (doc c)) query
                            + termHits (preview (doc c)) query)%Z)
       (rank_index index query k).
Proof.
  split.
  - cbn [candidate_of s]. rewrite !score_termHits. lia.
  - eapply Forall_impl; [|apply rank_index_scored].
    intros c [_ Hc]. exact Hc.
Qed.

(** C6: the candidates the prefilter returns are in non-increasing order of
    score; of two candidates with the same score the one earlier in the
    index comes first; each candidate is the document at its position of the
    index; and there are at most [k] of them (the first [k] when the index
    has that many). *)
Theorem prefilter_sorted_stable_bounded
    (index : list PathDoc) (query : string) (k : nat) :
  StronglySorted (fun a b => (s a >= s b)%Z) (rank_index index query (Z.of_nat k))
  /\ StronglySorted (fun a b => (s a > s b)%Z \/ (s a = s b /\ idx a < idx b))
       (rank_index index query (Z.of_nat k))
  /\ Forall (fun c => nth_error index (idx c) = Some (doc c))
       (rank_index index query (Z.of_nat k))
  /\ length (rank_index index query (Z.of_nat k)) = Nat.min k (length index)
  /\ length (rank_index index query (Z.of_nat k)) <= k.
Proof.
  pose proof (rank_index_sorted index query (Z.of_nat k)) as HS.
  repeat split.
  - now apply ranks_before_ge.
  - exact HS.
  - eapply Forall_impl; [|apply rank_index_scored].
    intros c [Hc _]. exact Hc.
  - apply rank_index_length.
  - rewrite rank_index_length. lia.
Qed.

(** ** The index *)

Lemma distinct_seen_spec (l : list string) :
  forall seen,
    NoDup (distinct_seen seen l)
    /\ forall x, In x (distinct_seen seen l) <-> In x l /\ ~ In x seen.
Proof.
  induction l as [|y l IH]; intros seen; simpl.
  - split; [constructor|]. intros x. tauto.
  - destruct (set_has seen y) eqn:Hs.
    + apply set_has_In in Hs. destruct (IH seen) as [Hnd Hin].
      split; [exact Hnd|]. intros x. rewrite Hin.
      split; [tauto|]. intros [[Heq|Hx] Hn]; [subst; contradiction|tauto].
    + assert (Hy : ~ In y seen).
      { intros Hin. apply set_has_In in Hin. congruence. }
      destruct (IH (y :: seen)) as [Hnd Hin].
      split.
      * constructor; [|exact Hnd]. rewrite Hin. simpl. tauto.
      * intros x. simpl. rewrite Hin. simpl.
        destruct (string_dec y x) as [->|Hne]; tauto.
Qed.

Lemma set_has_ext (a b : list string) (p : string) :
  (In p a <-> In p b) -> set_has a p = set_has b p.
Proof. intros Hab. apply eq_true_iff_eq. now rewrite !set_has_In. Qed.

Lemma distinct_seen_snoc (l : list string) (p : string) :
  forall seen,
    distinct_seen seen (l ++ [p])
    = distinct_seen seen l ++ (if set_has (seen ++ l) p then [] else [p]).
Proof.
  induction l as [|y l IH]; intros seen.
  - simpl. rewrite app_nil_r. destruct (set_has seen p); reflexivity.
  - cbn [app distinct_seen]. destruct (set_has seen y) eqn:Hs.
    + rewrite IH. f_equal.
      rewrite (set_has_ext (seen ++ l) (seen ++ y :: l) p); [reflexivity|].
      apply set_has_In in Hs. rewrite !in_app_iff. simpl.
      split; [tauto|]. intros [Hin|[->|Hin]]; tauto.
    + rewrite IH. cbn [app]. f_equal. f_equal.
      rewrite (set_has_ext (y :: seen ++ l) (seen ++ y :: l) p); [reflexivity|].
      simpl. rewrite !in_app_iff. simpl. tauto.
Qed.

Lemma map_has_keys (f : string -> list string) (keys : list string) (p : string) :
  map_has (map (fun k => (k, f k)) keys) p = set_has keys p.
Proof.
  induction keys as [|k keys IH]; simpl; [reflexivity|].
  now rewrite IH, (String.eqb_sym k p).
Qed.

Lemma map_push_keys (f : string -> list string) (keys : list string) (p c : string) :
  NoDup keys ->
  map_push (map (fun k => (k, f k)) keys) p c
  = map (fun k => (k, if k =? p then f k ++ [c] else f k)) keys.
Proof.
  induction 1 as [|k keys Hk Hnd IH]; simpl; [reflexivity|].
  destruct (String.eqb_spec k p) as [->|Hne].
  - f_equal. apply map_ext_in. intros k' Hk'.
    destruct (String.eqb_spec k' p) as [->|_]; [contradiction|reflexivity].
  - now rewrite IH.
Qed.

Lemma index_row_unfold (m : PathMap) (r : Row) :
  index_row m r
  = if row_usable r
    then map_push (if map_has m (row_path r) then m else m ++ [(row_path r, [])])
           (row_path r) (row_content r)
    else m.
Proof.
  unfold index_row, row_usable. fold (row_path r). fold (row_content r).
  destruct (JS.truthy (row_path r)), (JS.truthy (row_content r)); simpl; try reflexivity.
  destruct (map_has m (row_path r)); reflexivity.
Qed.

Lemma fragments_of_snoc (rows : list Row) (r : Row) (k : string) :
  fragments_of (rows ++ [r]) k
  = fragments_of rows k
    ++ (if row_usable r && (k =? row_path r) then [row_content r] else []).
Proof.
  unfold fragments_of. rewrite filter_app, map_app. simpl.
  destruct (row_usable r && (k =? row_path r)); reflexivity.
Qed.

Lemma fragments_of_absent (rows : list Row) (k : string) :
  ~ In k (usable_paths rows) -> fragments_of rows k = [].
Proof.
  unfold usable_paths, fragments_of. induction rows as [|r rows IH]; simpl; [reflexivity|].
  destruct (row_usable r) eqn:Hu; simpl.
  - intros Hn. destruct (String.eqb_spec k (row_path r)) as [->|Hne].
    + exfalso. apply Hn. now left.
    + apply IH. tauto.
  - exact IH.
Qed.

Lemma group_spec_snoc (rows : list Row) (r : Row) :
  group_spec (rows ++ [r]) = index_row (group_spec rows) r.
Proof.
  rewrite index_row_unfold. unfold group_spec at 1, usable_paths.
  rewrite filter_app. simpl. destruct (row_usable r) eqn:Hu.
  - rewrite map_app. simpl. fold (usable_paths rows).
    unfold distinct. rewrite distinct_seen_snoc. simpl app at 2.
    fold (distinct (usable_paths rows)).
    destruct (distinct_seen_spec (usable_paths rows) []) as [Hnd Hin].
    fold (distinct (usable_paths rows)) in Hnd, Hin.
    unfold group_spec at 1. rewrite map_has_keys.
    assert (Hsame : set_has (distinct (usable_paths rows)) (row_path r)
                    = set_has (usable_paths rows) (row_path r)).
    { apply eq_true_iff_eq. rewrite !set_has_In, Hin. simpl. tauto. }
    rewrite Hsame.
    destruct (set_has (usable_paths rows) (row_path r)) eqn:Hs.
    + rewrite app_nil_r. unfold group_spec. rewrite map_push_keys by exact Hnd.
      apply map_ext. intros k. rewrite fragments_of_snoc, Hu. simpl.
      destruct (k =? row_path r); [reflexivity|now rewrite app_nil_r].
    + assert (Hfresh : ~ In (row_path r) (usable_paths rows)).
      { intros Hc. apply set_has_In in Hc. congruence. }
      unfold group_spec.
      change (map (fun k => (k, fragments_of rows k)) (distinct (usable_paths rows))
              ++ [(row_path r, [])])
        with (map (fun k => (k, fragments_of rows k)) (distinct (usable_paths rows))
              ++ [(row_path r, @nil string)]).
      rewrite <- (fragments_of_absent rows (row_path r) Hfresh) at 2.
      change [(row_path r, fragments_of rows (row_path r))]
        with (map (fun k => (k, fragments_of rows k)) [row_path r]).
      rewrite <- map_app, map_push_keys.
      * apply map_ext. intros k. rewrite fragments_of_snoc, Hu. simpl.
        destruct (k =? row_path r); [reflexivity|now rewrite app_nil_r].
      * apply NoDup_app; [exact Hnd|repeat constructor; simpl; tauto|].
        intros x Hx [<-|[]]. apply Hin in Hx. tauto.
  - rewrite app_nil_r. fold (usable_paths rows). unfold group_spec.
    apply map_ext. intros k. rewrite fragments_of_snoc, Hu. simpl.
    now rewrite app_nil_r.
Qed.

Lemma group_rows_spec (rows : list Row) : group_rows rows = group_spec rows.
Proof.
  induction rows as [|r rows IH] using rev_ind.
  - reflexivity.
  - unfold group_rows in *. rewrite fold_left_app. simpl.
    now rewrite IH, group_spec_snoc.
Qed.

Lemma build_index_spec (rows : list Row) :
  build_index rows = map doc_of_entry (group_spec rows).
Proof. unfold build_index. now rewrite group_rows_spec. Qed.

Lemma build_index_paths (rows : list Row) :
  map path (build_index rows) = distinct (usable_paths rows).
Proof.
  rewrite build_index_spec. unfold group_spec. rewrite !map_map. simpl.
  apply map_id.
Qed.

Lemma usable_rows_only (rows : list Row) :
  usable_paths (filter row_usable rows) = usable_paths rows
  /\ forall k, fragments_of (filter row_usable rows) k = fragments_of rows k.
Proof.
  unfold usable_paths, fragments_of.
  induction rows as [|r rows [IH1 IH2]]; simpl; [split; reflexivity|].
  destruct (row_usable r) eqn:Hu; simpl; rewrite ?Hu; simpl.
  - split; [now rewrite IH1|].
    intros k. destruct (k =? row_path r); simpl; now rewrite IH2.
  - split; assumption.
Qed.

Lemma usable_path_fragments (rows : list Row) (k : string) :
  In k (usable_paths rows) -> JS.truthy k = true /\ fragments_of rows k <> [].
Proof.
  unfold usable_paths, fragments_of. induction rows as [|r rows IH]; simpl; [tauto|].
  destruct (row_usable r) eqn:Hu; simpl.
  - intros [<-|Hin].
    + rewrite String.eqb_refl. simpl. split; [|discriminate].
      unfold row_usable in Hu. now apply andb_true_iff in Hu.
    + destruct (IH Hin) as [Ht Hne]. split; [exact Ht|].
      destruct (k =? row_path r); simpl; [discriminate|exact Hne].
  - exact IH.
Qed.

Lemma build_index_NoDup (rows : list Row) : NoDup (map path (build_index rows)).
Proof.
  rewrite build_index_paths.
  apply (distinct_seen_spec (usable_paths rows) []).
Qed.

(** ** Claim on the index *)

(** C7: for every sequence of rows the index has one document for each
    distinct path among the rows whose trimmed path and trimmed content are
    both non-empty, in order of first appearance and with no path twice; the
    other rows change nothing; a document holds the trimmed contents of its
    rows in row order, at least one, and its preview is the first 500
    characters of them joined by one space.  Once a call of the loader has
    returned an index, a further call returns that same index and leaves the
    store as it is, read count included, whatever the file has become. *)
Theorem index_grouped_and_cached :
  (forall rows : list Row,
      NoDup (map path (build_index rows))
      /\ map path (build_index rows) = distinct (map row_path (filter row_usable rows))
      /\ build_index rows = build_index (filter row_usable rows)
      /\ Forall (fun d =>
                   JS.truthy (path d) = true
                   /\ contents d <> []
                   /\ contents d
                      = map row_content
                          (filter (fun r => row_usable r && (path d =? row_path r)) rows)
                   /\ preview d = JS.slice0 500 (JS.join " " (contents d)))
           (build_index rows))
  /\ (forall (H1 H2 : Host) (st st1 : Store) (index : list PathDoc),
         loadPathIndex (H := H1) st = (Ok index, st1) ->
         loadPathIndex (H := H2) st1 = (Ok index, st1)
         /\ (PATH_INDEX st = None ->
             exists rows, @readMetaCsv H1 (reads st) = Ok rows
                          /\ index = build_index rows
                          /\ reads st1 = S (reads st))).
Proof.
  split.
  - intros rows.
    destruct (distinct_seen_spec (usable_paths rows) []) as [_ Hin].
    fold (distinct (usable_paths rows)) in Hin.
    split; [apply build_index_NoDup|].
    split; [apply build_index_paths|].
    split.
    + rewrite !build_index_spec. unfold group_spec.
      destruct (usable_rows_only rows) as [-> Hf].
      f_equal. apply map_ext. intros k. now rewrite Hf.
    + rewrite build_index_spec. unfold group_spec. rewrite map_map.
      apply Forall_forall. intros d Hd. apply in_map_iff in Hd.
      destruct Hd as [k [<- Hk]]. apply Hin in Hk. destruct Hk as [Hk _].
      destruct (usable_path_fragments rows k Hk) as [Ht Hne].
      cbn [doc_of_entry path contents preview fst snd].
      split; [exact Ht|]. split; [exact Hne|]. split; reflexivity.
  - intros H1 H2 st st1 index Hload.
    unfold loadPathIndex in Hload.
    destruct (PATH_INDEX st) as [cached|] eqn:Hc.
    + inversion Hload; subst. split.
      * unfold loadPathIndex. now rewrite Hc.
      * discriminate.
    + destruct (readMetaCsv (reads st)) as [rows|e] eqn:Hr; [|discriminate].
      inversion Hload; subst. split.
      * reflexivity.
      * intros _. exists rows. split; [reflexivity|]. split; reflexivity.
Qed.

(** A run on the two rows of the example: the first call reads the file
    once, the second call returns the cached index though the file can no
    longer be read. *)
Lemma index_grouped_and_cached_witness :
  let H1 := Demo.host (Some "sk-test") None in
  let H2 := Demo.unreadable in
  loadPathIndex (H := H1) Demo.cold
  = (Ok [Demo.doc1; Demo.doc2],
     {| PATH_INDEX := Some [Demo.doc1; Demo.doc2]; reads := 1 |})
  /\ loadPathIndex (H := H2)
       {| PATH_INDEX := Some [Demo.doc1; Demo.doc2]; reads := 1 |}
     = (Ok [Demo.doc1; Demo.doc2],
        {| PATH_INDEX := Some [Demo.doc1; Demo.doc2]; reads := 1 |}).
Proof.
  intros H1 H2.
  assert (Hfirst : loadPathIndex (H := H1) Demo.cold
                   = (Ok [Demo.doc1; Demo.doc2],
                      {| PATH_INDEX := Some [Demo.doc1; Demo.doc2]; reads := 1 |}))
    by (vm_compute; reflexivity).
  split; [exact Hfirst|].
  exact (proj1 (proj2 index_grouped_and_cached H1 H2 Demo.cold _ _ Hfirst)).
Defined.

(** ** The selection *)

Lemma dedupe_seen_incl (l : list Z) :
  forall seen x, In x (JS.dedupe_seen seen l) -> In x l.
Proof.
  induction l as [|y l IH]; intros seen x; simpl; [tauto|].
  destruct (existsb (Z.eqb y) seen).
  - intros Hin. right. eapply IH, Hin.
  - intros [->|Hin]; [now left|]. right. eapply IH, Hin.
Qed.

Lemma unique_of_bounds (len : nat) (nums : list Z) :
  Forall (fun n => (1 <= n <= Z.of_nat len)%Z) (unique_of len nums).
Proof.
  unfold unique_of. apply Forall_firstn. apply Forall_forall. intros x Hx.
  apply dedupe_seen_incl, filter_In in Hx. destruct Hx as [_ Hx].
  unfold in_candidates in Hx. lia.
Qed.

(** The fallback list [[1, 2, 3].slice(0, Math.min(3, len))]. *)
Lemma fallback_list (len : nat) :
  JS.array_slice0 (Z.min 3 (Z.of_nat len)) [1; 2; 3]%Z
  = map Z.of_nat (seq 1 (Nat.min 3 len)).
Proof.
  destruct len as [|[|[|len]]]; try reflexivity.
  replace (Z.min 3 (Z.of_nat (S (S (S len))))) with 3%Z by lia.
  reflexivity.
Qed.

Lemma chosenIdxes_cases (len : nat) (nums : list Z) :
  chosenIdxes len nums
  = if (0 <? length (unique_of len nums))%nat then unique_of len nums
    else map Z.of_nat (seq 1 (Nat.min 3 len)).
Proof. unfold chosenIdxes. now rewrite fallback_list. Qed.

Lemma chosenIdxes_bounds (len : nat) (nums : list Z) :
  Forall (fun n => (1 <= n <= Z.of_nat len)%Z) (chosenIdxes len nums).
Proof.
  rewrite chosenIdxes_cases. destruct (0 <? length (unique_of len nums))%nat.
  - apply unique_of_bounds.
  - apply Forall_forall. intros x Hx. apply in_map_iff in Hx.
    destruct Hx as [n [<- Hn]]. apply in_seq in Hn. lia.
Qed.

Lemma chosenIdxes_nonempty (len : nat) (nums : list Z) :
  len <> 0 -> chosenIdxes len nums <> [].
Proof.
  intros Hlen. rewrite chosenIdxes_cases.
  destruct (Nat.ltb_spec 0 (length (unique_of len nums))) as [Hlt|Hge].
  - intros Heq. rewrite Heq in Hlt. simpl in Hlt. lia.
  - destruct len as [|[|[|len]]]; [contradiction|discriminate..].
Qed.

Lemma array_get_in_bounds {A : Type} (l : list A) (n : Z) :
  (1 <= n <= Z.of_nat (length l))%Z -> exists c, array_get l (n - 1) = Some c.
Proof.
  intros Hn. unfold array_get.
  destruct (Z.ltb_spec (n - 1) 0); [lia|].
  destruct (nth_error l (Z.to_nat (n - 1))) as [c|] eqn:Hc; [eauto|].
  apply nth_error_None in Hc. lia.
Qed.

Lemma array_get_In {A : Type} (l : list A) (i : Z) (c : A) :
  array_get l i = Some c -> In c l.
Proof.
  unfold array_get. destruct (i <? 0)%Z; [discriminate|]. apply nth_error_In.
Qed.

Lemma pick_loop_total (ranked : list Candidate) (chosen : list Z) :
  Forall (fun n => (1 <= n <= Z.of_nat (length ranked))%Z) chosen ->
  forall seen picked, exists docs, pick_loop ranked chosen seen picked = Ok docs.
Proof.
  induction 1 as [|n chosen Hn _ IH]; intros seen picked; cbn [pick_loop].
  - eauto.
  - destruct (array_get_in_bounds ranked n Hn) as [c ->].
    match goal with |- context [if (?a <=? ?b)%nat then _ else _] =>
      destruct (a <=? b)%nat end; eauto.
Qed.

Lemma pick_loop_sound (ranked : list Candidate) (chosen : list Z) :
  forall seen picked docs,
    pick_loop ranked chosen seen picked = Ok docs ->
    loop_invariant ranked seen picked ->
    length picked < MAX_SELECTED ->
    loop_invariant ranked (map path docs) docs
    /\ length docs <= MAX_SELECTED
    /\ (chosen <> [] -> 1 <= length docs).
Proof.
  induction chosen as [|n chosen IH]; intros seen picked docs Hrun Hinv Hlen;
    cbn [pick_loop] in Hrun.
  - inversion Hrun; subst. destruct Hinv as [_ [Hnd Hincl]].
    split; [|split; [lia|congruence]].
    split; [tauto|]. split; assumption.
  - destruct (array_get ranked (n - 1)) as [c|] eqn:Hget; [|discriminate].
    apply array_get_In in Hget.
    destruct Hinv as [Hseen [Hnd Hincl]].
    destruct (set_has seen (path (doc c))) eqn:Hs; cbn [negb] in Hrun.
    + destruct (Nat.leb_spec MAX_SELECTED (length picked)) as [Hge|_]; [lia|].
      destruct (IH seen picked docs Hrun) as [Hi [Hle Hpos]];
        [split; [|split]; assumption|exact Hlen|].
      split; [exact Hi|]. split; [exact Hle|]. intros _.
      apply set_has_In, Hseen in Hs.
      destruct chosen as [|m chosen].
      * simpl in Hrun. inversion Hrun; subst.
        destruct docs; [contradiction|simpl; lia].
      * apply Hpos. discriminate.
    + assert (Hfresh : ~ In (path (doc c)) (map path picked)).
      { intros Hin. apply Hseen, set_has_In in Hin. congruence. }
      assert (Hinv' : loop_invariant ranked (path (doc c) :: seen) (picked ++ [doc c])).
      { split; [|split].
        - intros p. rewrite map_app, in_app_iff. simpl. rewrite Hseen. tauto.
        - rewrite map_app. apply NoDup_app; [exact Hnd|repeat constructor; simpl; tauto|].
          intros x Hx [<-|[]]. contradiction.
        - intros d Hd. apply in_app_iff in Hd. destruct Hd as [Hd|[<-|[]]].
          + now apply Hincl.
          + now apply in_map. }
      destruct (Nat.leb_spec MAX_SELECTED (length (picked ++ [doc c]))) as [Hge|Hlt].
      * inversion Hrun; subst. rewrite length_app in *. simpl in *.
        destruct Hinv' as [_ [Hnd' Hincl']].
        split; [|split; [lia|intros _; lia]].
        split; [tauto|]. split; assumption.
      * destruct (IH _ _ docs Hrun Hinv' Hlt) as [Hi [Hle Hpos]].
        split; [exact Hi|]. split; [exact Hle|]. intros _.
        destruct chosen as [|m chosen].
        -- simpl in Hrun. inversion Hrun; subst.
           rewrite length_app. simpl. lia.
        -- apply Hpos. discriminate.
Qed.

Lemma fallback_pick (ranked : list Candidate) :
  NoDup (map (fun c => path (doc c)) ranked) ->
  pick_loop ranked (map Z.of_nat (seq 1 (Nat.min 3 (length ranked)))) [] []
  = Ok (map doc (firstn (Nat.min 3 (length ranked)) ranked)).
Proof.
  intros Hnd.
  destruct ranked as [|a [|b [|c r]]]; try reflexivity.
  - inversion Hnd as [|? ? Hab _]; subst.
    assert (Hba : (path (doc b) =? path (doc a)) = false).
    { apply String.eqb_neq. intros Heq. apply Hab. left. now symmetry. }
    change (map Z.of_nat (seq 1 (Nat.min 3 (length [a; b])))) with [1; 2]%Z.
    cbn [pick_loop].
    change (array_get [a; b] (1 - 1)) with (Some a).
    change (array_get [a; b] (2 - 1)) with (Some b).
    unfold set_has. cbn. now rewrite Hba.
  - inversion Hnd as [|? ? Ha Hnd']; subst.
    inversion Hnd' as [|? ? Hb _]; subst.
    assert (Hba : (path (doc b) =? path (doc a)) = false).
    { apply String.eqb_neq. intros Heq. apply Ha. left. now symmetry. }
    assert (Hca : (path (doc c) =? path (doc a)) = false).
    { apply String.eqb_neq. intros Heq. apply Ha. right. left. now symmetry. }
    assert (Hcb : (path (doc c) =? path (doc b)) = false).
    { apply String.eqb_neq. intros Heq. apply Hb. left. now symmetry. }
    change (map Z.of_nat (seq 1 (Nat.min 3 (length (a :: b :: c :: r)))))
      with [1; 2; 3]%Z.
    change (firstn (Nat.min 3 (length (a :: b :: c :: r))) (a :: b :: c :: r))
      with [a; b; c].
    cbn [pick_loop].
    change (array_get (a :: b :: c :: r) (1 - 1)) with (Some a).
    change (array_get (a :: b :: c :: r) (2 - 1)) with (Some b).
    change (array_get (a :: b :: c :: r) (3 - 1)) with (Some c).
    unfold set_has. cbn. rewrite Hba. cbn. now rewrite Hcb, Hca.
Qed.

Lemma sort_insert_paths cmp (x : Candidate) (l : list Candidate) :
  forall p, In p (map (fun c => path (doc c)) (JS.sort_insert cmp x l))
            <-> In p (map (fun c => path (doc c)) (x :: l)).
Proof.
  induction l as [|y l IH]; intros p; simpl; [tauto|].
  destruct (0 <? cmp x y)%Z; simpl; [|tauto].
  rewrite IH. simpl. tauto.
Qed.

Lemma sort_insert_NoDup cmp (x : Candidate) (l : list Candidate) :
  NoDup (map (fun c => path (doc c)) (x :: l)) ->
  NoDup (map (fun c => path (doc c)) (JS.sort_insert cmp x l)).
Proof.
  induction l as [|y l IH]; simpl; intros Hnd; [exact Hnd|].
  destruct (0 <? cmp x y)%Z; [|exact Hnd]. simpl.
  inversion Hnd as [|? ? Hx Hyl]; subst. inversion Hyl as [|? ? Hy Hl]; subst.
  constructor.
  - rewrite sort_insert_paths. simpl in *. intuition congruence.
  - apply IH. constructor; [simpl in *; tauto|exact Hl].
Qed.

Lemma sort_NoDup cmp (l : list Candidate) :
  NoDup (map (fun c => path (doc c)) l) ->
  NoDup (map (fun c => path (doc c)) (JS.sort cmp l)).
Proof.
  induction l as [|x l IH]; simpl; intros Hnd; [exact Hnd|].
  inversion Hnd as [|? ? Hx Hl]; subst.
  apply sort_insert_NoDup. simpl. constructor; [|now apply IH].
  intros Hin. apply Hx. clear - Hin.
  induction l as [|y l IH]; simpl in *; [exact Hin|].
  apply sort_insert_paths in Hin. simpl in Hin. tauto.
Qed.

Lemma NoDup_firstn {A : Type} (n : nat) (l : list A) :
  NoDup l -> NoDup (firstn n l).
Proof.
  intros Hnd. rewrite <- (firstn_skipn n l) in Hnd.
  now apply NoDup_app_remove_r in Hnd.
Qed.

Lemma mapi_from_paths (query : string) (index : list PathDoc) :
  forall i, map (fun c => path (doc c)) (JS.mapi_from i (candidate_of query) index)
            = map path index.
Proof. induction index as [|d index IH]; intros i; simpl; [reflexivity|now rewrite IH]. Qed.

Lemma rank_index_NoDup (index : list PathDoc) (query : string) (k : Z) :
  NoDup (map path index) ->
  NoDup (map (fun c => path (doc c)) (rank_index index query k)).
Proof.
  intros Hnd. unfold rank_index.
  destruct (array_slice0_prefix
              (Z.min k (Z.of_nat (length (JS.sort (fun a b => (s b - s a)%Z)
                                            (JS.mapi (candidate_of query) index)))))
              (JS.sort (fun a b => (s b - s a)%Z) (JS.mapi (candidate_of query) index)))
    as [n ->].
  rewrite <- firstn_map. apply NoDup_firstn, sort_NoDup.
  unfold JS.mapi. now rewrite mapi_from_paths.
Qed.

Section SelectionFacts.
Context {P : Platform}.

Lemma select_docs_unfold (payload : JSON) (ranked : list Candidate)
    (v : option JSON) (nums : list Z) :
  get_field payload "selected_indices" = Ok v ->
  toNumberArray v = Ok nums ->
  select_docs payload ranked
  = pick_loop ranked (chosenIdxes (length ranked) nums) [] [].
Proof. intros Hv Hn. unfold select_docs. now rewrite Hv; simpl; rewrite Hn. Qed.

(** Whenever the selection returns, it returns one to four documents of
    the candidate list, no path twice. *)
Lemma select_docs_sound (payload : JSON) (ranked : list Candidate)
    (docs : list PathDoc) :
  ranked <> [] ->
  select_docs payload ranked = Ok docs ->
  1 <= length docs <= MAX_SELECTED
  /\ NoDup (map path docs)
  /\ incl docs (map doc ranked).
Proof.
  intros Hne Hsel. unfold select_docs in Hsel.
  destruct (get_field payload "selected_indices") as [v|] eqn:Hv; [|discriminate].
  simpl in Hsel.
  destruct (toNumberArray v) as [nums|] eqn:Hn; [|discriminate].
  simpl in Hsel.
  destruct (pick_loop_sound ranked _ [] [] docs Hsel) as [[_ [Hnd Hincl]] [Hle Hpos]].
  - split; [tauto|]. split; [constructor|]. intros d [].
  - unfold MAX_SELECTED. simpl. lia.
  - split; [|split; assumption]. split; [|exact Hle].
    apply Hpos, chosenIdxes_nonempty. destruct ranked; [contradiction|discriminate].
Qed.

(** It returns whenever reading the field and the coercions do. *)
Lemma select_docs_returns (payload : JSON) (ranked : list Candidate)
    (v : option JSON) (nums : list Z) :
  get_field payload "selected_indices" = Ok v ->
  toNumberArray v = Ok nums ->
  exists docs, select_docs payload ranked = Ok docs.
Proof.
  intros Hv Hn. rewrite (select_docs_unfold _ _ _ _ Hv Hn).
  apply pick_loop_total, chosenIdxes_bounds.
Qed.

End SelectionFacts.

(** ** Claims on the selection *)

(** The fallback where the selection runs to its end: when the body of the
    selector's answer does not parse as JSON, or the [selected_indices]
    read from the parsed payload is not an array, or the integers coerced
    from it leave nothing once those outside [1 .. candidate count] are
    dropped, the selection returns the documents of the first
    [min 3 (candidate count)] candidates, in the order of the prefilter.
    The payload [null], from which no field can be read, is not among
    these cases. *)
Theorem selection_falls_back_to_top_three {P : Platform}
    (rows : list Row) (query : string) (k : Z) (selector : ChatCompletion) :
  (exists e, JSON_parse (raw_of selector) = Throw e)
  \/ (exists v, get_field (parse_payload selector) "selected_indices" = Ok v
                /\ forall items, v <> Some (JArray items))
  \/ (exists v nums,
         get_field (parse_payload selector) "selected_indices" = Ok v
         /\ toNumberArray v = Ok nums
         /\ filter (in_candidates (length (rank_index (build_index rows) query k))) nums
            = []) ->
  select_docs (parse_payload selector) (rank_index (build_index rows) query k)
  = Ok (map doc
          (firstn (Nat.min 3 (length (rank_index (build_index rows) query k)))
             (rank_index (build_index rows) query k))).
Proof.
  intros Hcase.
  assert (Hc : exists v nums,
             get_field (parse_payload selector) "selected_indices" = Ok v
             /\ toNumberArray v = Ok nums
             /\ filter (in_candidates (length (rank_index (build_index rows) query k))) nums
                = []).
  { destruct Hcase as [[e He]|[[v [Hv Hna]]|Hc]]; [| |exact Hc].
    - exists None, []. unfold parse_payload. rewrite He. repeat split.
    - exists v, []. split; [exact Hv|]. split; [|reflexivity].
      destruct v as [[| | | |items|]|]; try reflexivity.
      now destruct (Hna items). }
  destruct Hc as [v [nums [Hv [Hn Hf]]]].
  rewrite (select_docs_unfold _ _ _ _ Hv Hn), chosenIdxes_cases.
  unfold unique_of. rewrite Hf. cbn [JS.dedupe JS.dedupe_seen firstn length Nat.ltb Nat.leb].
  apply fallback_pick, rank_index_NoDup.
  apply build_index_NoDup.
Qed.

(** The specification's own example: the payload
    [{"selected_indices": "not-an-array"}] over the two candidates of the
    scoring example. *)
Lemma selection_falls_back_witness :
  select_docs (P := Demo.platform)
    (parse_payload (P := Demo.platform) (Demo.completion (Some Demo.not_an_array_body)))
    (rank_index (build_index Demo.rows) "hardware revenue" PREFILTER_TOP_K)
  = Ok [Demo.doc2; Demo.doc1].
Proof.
  apply (selection_falls_back_to_top_three (P := Demo.platform)
           Demo.rows "hardware revenue" PREFILTER_TOP_K
           (Demo.completion (Some Demo.not_an_array_body))).
  right. left. exists (Some (JString "not-an-array")).
  split; [vm_compute; reflexivity|intros items; discriminate].
Defined.

(** C1 fails on the code at the body [null].  The body parses, so the
    [catch] around [JSON.parse] leaves the payload [null]; it has no
    [selected_indices] that is an array; the two candidates of the scoring
    example are there to fall back to; yet reading the field throws, and
    for no candidate list does the selection return the first candidates. *)
Theorem fallback_missed_on_null_body :
  JSON_parse (Platform := Demo.platform) (raw_of (Demo.completion (Some "null")))
  = Ok JNull
  /\ parse_payload (P := Demo.platform) (Demo.completion (Some "null")) = JNull
  /\ (forall items, opt_field JNull "selected_indices" <> Some (JArray items))
  /\ map doc (firstn (Nat.min 3 (length (rank_index (build_index Demo.rows)
                                            "hardware revenue" PREFILTER_TOP_K)))
                (rank_index (build_index Demo.rows) "hardware revenue" PREFILTER_TOP_K))
     = [Demo.doc2; Demo.doc1]
  /\ select_docs (P := Demo.platform)
       (parse_payload (P := Demo.platform) (Demo.completion (Some "null")))
       (rank_index (build_index Demo.rows) "hardware revenue" PREFILTER_TOP_K)
     = Throw TypeError
  /\ (forall (P : Platform) (ranked : list Candidate),
         select_docs (P := P) JNull ranked
         <> Ok (map doc (firstn (Nat.min 3 (length ranked)) ranked))).
Proof.
  split; [reflexivity|]. split; [reflexivity|].
  split; [intros items; discriminate|].
  split; [vm_compute; reflexivity|].
  split; [vm_compute; reflexivity|].
  intros P ranked. discriminate.
Qed.

(** C5 fails on the code at the payload [null]: reading
    [payload.selected_indices] throws, nothing is selected and the request
    ends in the generic 500.  An array element that owns a [toString]
    property makes [Number] throw in the same way. *)
Theorem selection_throws_on_null_payload :
  (forall (P : Platform) (ranked : list Candidate),
      select_docs (P := P) JNull ranked = Throw TypeError)
  /\ (forall (P : Platform) (ranked : list Candidate),
         select_docs (P := P)
           (JObject [("selected_indices",
                      JArray [JObject [("toString", JNumber (Int 1))]])])
           ranked
         = Throw TypeError)
  /\ parse_payload (P := Demo.platform) (Demo.completion (Some "null")) = JNull
  /\ fst (POST (P := Demo.platform) (H := Demo.host (Some "sk-test") (Some "null"))
            (Demo.ask "hardware revenue") Demo.cold)
     = json "Server error while generating answer. Check logs & environment variables." 500.
Proof.
  split; [reflexivity|]. split; [reflexivity|].
  split; vm_compute; reflexivity.
Qed.

(** C9: every index in [chosenIdxes] lies in [1 .. ranked.length], whatever
    integers the coercion produced: the validated list by the filter, the
    fallback list because it is [1 .. min 3 ranked.length].  So each
    [ranked[oneBased - 1]] is a candidate and the loop that resolves the
    indices returns without an exception. *)
Theorem chosen_indices_in_bounds (ranked : list Candidate) (nums : list Z) :
  Forall (fun oneBased =>
            (1 <= oneBased <= Z.of_nat (length ranked))%Z
            /\ exists c, array_get ranked (oneBased - 1) = Some c)
    (chosenIdxes (length ranked) nums)
  /\ chosenIdxes (length ranked) nums
     = (if (0 <? length (unique_of (length ranked) nums))%nat
        then unique_of (length ranked) nums
        else map Z.of_nat (seq 1 (Nat.min 3 (length ranked))))
  /\ exists docs,
       pick_loop ranked (chosenIdxes (length ranked) nums) [] [] = Ok docs.
Proof.
  pose proof (chosenIdxes_bounds (length ranked) nums) as Hb.
  split; [|split].
  - eapply Forall_impl; [|exact Hb]. intros n Hn.
    split; [exact Hn|now apply array_get_in_bounds].
  - apply chosenIdxes_cases.
  - now apply pick_loop_total.
Qed.

(** ** The question and the response *)

Lemma slice0_length (n : nat) (str : string) : String.length (JS.slice0 n str) <= n.
Proof.
  revert str. induction n as [|n IH]; intros [|c r]; simpl; try lia.
  specialize (IH r). lia.
Qed.

Lemma trimStart_length (str : string) :
  String.length (JS.trimStart str) <= String.length str.
Proof.
  induction str as [|c r IH]; simpl; [lia|].
  destruct (JS.is_white_space c); simpl; lia.
Qed.

Lemma trimEnd_length (str : string) :
  String.length (JS.trimEnd str) <= String.length str.
Proof.
  induction str as [|c r IH]; simpl; [lia|].
  destruct (JS.trimEnd r) as [|c' r'].
  - destruct (JS.is_white_space c); simpl; lia.
  - simpl in *. lia.
Qed.

Lemma trim_length (str : string) : String.length (JS.trim str) <= String.length str.
Proof.
  unfold JS.trim. pose proof (trimEnd_length (JS.trimStart str)).
  pose proof (trimStart_length str). lia.
Qed.

Lemma question_of_length (userScenario : string) :
  String.length (question_of userScenario) <= MAX_QUESTION_LEN.
Proof.
  unfold question_of.
  pose proof (trim_length (JS.slice0 MAX_QUESTION_LEN userScenario)).
  pose proof (slice0_length MAX_QUESTION_LEN userScenario). lia.
Qed.

Section RouteFacts.
Context {P : Platform} {H : Host}.

(** With the key set and the body readable as a string, [POST] is a
    function of the question alone. *)
Lemma POST_try_question (req : Request) (st : Store) (userScenario : string) :
  apiKey_missing = false ->
  userScenario_of req = Ok userScenario ->
  POST_try req st
  = if negb (JS.truthy (question_of userScenario)) then
      (Ok (json "Please provide a question." 400), st)
    else
      match topPathCandidates (question_of userScenario) PREFILTER_TOP_K st with
      | (Throw e, st') => (Throw e, st')
      | (Ok ranked, st') => (answer_from (question_of userScenario) ranked, st')
      end.
Proof. intros Hk Hu. unfold POST_try. now rewrite Hk, Hu. Qed.

(** C4, amended: the question is the body's [userScenario] cut to its
    first 1000 characters and then trimmed; it has at most 1000
    characters; and the response and the store after [POST] depend on the
    body only through that question: two bodies with the same cut and
    trimmed string are answered alike. *)
Theorem question_is_truncated_then_trimmed
    (req1 req2 : Request) (st : Store) (u1 u2 : string) :
  userScenario_of req1 = Ok u1 ->
  userScenario_of req2 = Ok u2 ->
  JS.trim (JS.slice0 1000 u1) = JS.trim (JS.slice0 1000 u2) ->
  question_of u1 = JS.trim (JS.slice0 1000 u1)
  /\ String.length (question_of u1) <= 1000
  /\ POST req1 st = POST req2 st.
Proof.
  intros Hu1 Hu2 Heq.
  split; [reflexivity|]. split; [apply question_of_length|].
  unfold POST. destruct apiKey_missing eqn:Hk.
  - unfold POST_try. now rewrite Hk.
  - rewrite (POST_try_question req1 st u1 Hk Hu1).
    rewrite (POST_try_question req2 st u2 Hk Hu2).
    unfold question_of, MAX_QUESTION_LEN. now rewrite Heq.
Qed.

(** C8: when the request goes through (the key is set, the question is
    not empty, the index loads and has candidates, both completion calls
    return and the selection returns [pickedDocs]), the response is 200
    and its advice is the answer text (the content of the answer call's
    first choice, trimmed), a blank line, the line [Sources:] and one line
    [i. **path**] for each of [pickedDocs], numbered from 1 in their
    order.  [pickedDocs] is the list the answer prompt was built from; it
    holds one to four candidates' documents and no path twice. *)
Theorem advice_lists_selected_sources
    (req : Request) (st st' : Store) (userScenario : string)
    (ranked : list Candidate) (selector answerResp : ChatCompletion)
    (pickedDocs : list PathDoc) :
  apiKey_missing = false ->
  userScenario_of req = Ok userScenario ->
  JS.truthy (question_of userScenario) = true ->
  topPathCandidates (question_of userScenario) PREFILTER_TOP_K st = (Ok ranked, st') ->
  ranked <> [] ->
  chat_create (selector_params (question_of userScenario) ranked) = Ok selector ->
  select_docs (parse_payload selector) ranked = Ok pickedDocs ->
  chat_create
    {| model := OPENAI_MODEL_ANSWER; json_object := false;
       messages := buildAnswerPrompt (question_of userScenario) pickedDocs |}
  = Ok answerResp ->
  POST req st
  = ({| status := 200;
        advice :=
          (answerText_of answerResp ++ JS.LF ++ JS.LF ++ "Sources:" ++ JS.LF
           ++ JS.join JS.LF
                (JS.mapi (fun d i => JS.decimal (i + 1) ++ ". **" ++ path d ++ "**")
                   pickedDocs))%string |},
     st')
  /\ NoDup (map path pickedDocs)
  /\ 1 <= length pickedDocs <= 4
  /\ incl pickedDocs (map doc ranked).
Proof.
  intros Hk Hu Hq Hrank Hne Hsel Hpick Hans.
  destruct (select_docs_sound _ _ _ Hne Hpick) as [Hlen [Hnd Hincl]].
  split; [|split; [exact Hnd|split; [exact Hlen|exact Hincl]]].
  unfold POST. rewrite (POST_try_question req st userScenario Hk Hu).
  rewrite Hq. cbn [negb]. rewrite Hrank.
  unfold answer_from.
  destruct ranked as [|c ranked]; [contradiction|].
  cbn [length Nat.eqb]. rewrite Hsel. cbn [bind]. rewrite Hpick. cbn [bind].
  unfold answer_params. rewrite Hans. reflexivity.
Qed.

(** C10: on the lines the claim is read from, which a request reaches once
    the key guard before them is passed, a body that is not valid JSON, or
    whose parsed value has no [userScenario], is no server error: the parse
    failure leaves an empty object, the question is empty and the answer is
    400 with "Please provide a question.", never 500; nothing is read and
    no model is called. *)
Theorem bad_body_is_a_client_error (req : Request) (st : Store) :
  apiKey_missing = false ->
  (exists e, JSON_parse (body_text req) = Throw e)
  \/ (exists body, JSON_parse (body_text req) = Ok body
                   /\ opt_field body "userScenario" = None) ->
  POST req st = ({| status := 400; advice := "Please provide a question." |}, st).
Proof.
  intros Hk Hbody.
  assert (Hu : userScenario_of req = Ok EmptyString).
  { unfold userScenario_of.
    destruct Hbody as [[e ->]|[body [-> Hnone]]]; [reflexivity|].
    now rewrite Hnone. }
  unfold POST. now rewrite (POST_try_question req st EmptyString Hk Hu).
Qed.

End RouteFacts.

(** C4, as stated: the question would be the body trimmed and then cut to
    1000 characters.  A body of 1000 spaces and a letter has the trimmed
    question "x", yet the route finds the question empty and answers 400. *)
Lemma trim_then_truncate_fails :
  ~ (forall userScenario : string, question_of userScenario = spec_question userScenario).
Proof.
  intros Hc. specialize (Hc (Demo.spaces 1000 ++ "x")%string).
  vm_compute in Hc. discriminate Hc.
Qed.

Lemma question_is_truncated_then_trimmed_witness :
  POST (P := Demo.platform) (H := Demo.host (Some "sk-test") (Some EmptyString))
    (Demo.ask "hardware revenue") Demo.cold
  = POST (P := Demo.platform) (H := Demo.host (Some "sk-test") (Some EmptyString))
      (Demo.ask "  hardware revenue ") Demo.cold.
Proof.
  apply (question_is_truncated_then_trimmed
           (P := Demo.platform) (H := Demo.host (Some "sk-test") (Some EmptyString))
           (Demo.ask "hardware revenue") (Demo.ask "  hardware revenue ") Demo.cold
           "hardware revenue" "  hardware revenue ");
    vm_compute; reflexivity.
Defined.

(** A request answered from the fallback selection. *)
Lemma advice_lists_selected_sources_witness :
  POST (P := Demo.platform) (H := Demo.host (Some "sk-test") (Some "not json"))
    (Demo.ask "hardware revenue") Demo.cold
  = ({| status := 200;
        advice :=
          ("Hardware drives revenue." ++ JS.LF ++ JS.LF ++ "Sources:" ++ JS.LF
           ++ "1. **Item 7 MD&A**" ++ JS.LF ++ "2. **Item 1 Business**")%string |},
     {| PATH_INDEX := Some [Demo.doc1; Demo.doc2]; reads := 1 |}).
Proof.
  apply (advice_lists_selected_sources
           (P := Demo.platform) (H := Demo.host (Some "sk-test") (Some "not json"))
           (Demo.ask "hardware revenue") Demo.cold
           {| PATH_INDEX := Some [Demo.doc1; Demo.doc2]; reads := 1 |}
           "hardware revenue"
           [ {| idx := 1; doc := Demo.doc2; s := 2 |};
             {| idx := 0; doc := Demo.doc1; s := 1 |} ]
           (Demo.completion (Some "not json"))
           (Demo.completion (Some " Hardware drives revenue. "))
           [Demo.doc2; Demo.doc1]);
    try (vm_compute; reflexivity).
  discriminate.
Defined.

Lemma bad_body_is_a_client_error_witness :
  POST (P := Demo.platform) (H := Demo.host (Some "sk-test") None)
    {| body_text := "not json" |} Demo.cold
  = ({| status := 400; advice := "Please provide a question." |}, Demo.cold).
Proof.
  apply (bad_body_is_a_client_error
           (P := Demo.platform) (H := Demo.host (Some "sk-test") None)
           {| body_text := "not json" |} Demo.cold).
  - reflexivity.
  - left. exists SyntaxError. reflexivity.
Defined.

(** * Further properties of the route *)

(** ** The coercions of [toNumberArray] *)

Lemma JSON_elements_ind (Q : JSON -> Prop) :
  Q JNull ->
  (forall b, Q (JBool b)) ->
  (forall n, Q (JNumber n)) ->
  (forall str, Q (JString str)) ->
  (forall items, Forall Q items -> Q (JArray items)) ->
  (forall props, Q (JObject props)) ->
  forall x, Q x.
Proof.
  intros Hnull Hbool Hnum Hstr Harr Hobj. fix IH 1.
  intros [|b|n|str|items|props];
    [exact Hnull|apply Hbool|apply Hnum|apply Hstr| |apply Hobj].
  apply Harr. induction items as [|x items IHitems]; constructor.
  - apply IH.
  - exact IHitems.
Qed.

Section CoercionFacts.
Context {P : Platform}.

Lemma ToString_array_nil : ToString (JArray []) = Ok EmptyString.
Proof. reflexivity. Qed.

Lemma ToString_array_cons (e : JSON) (r : list JSON) :
  ToString (JArray (e :: r))
  = (h <- match e with JNull => Ok EmptyString | _ => ToString e end ;;
     match r with
     | [] => Ok h
     | _ => t <- ToString (JArray r) ;; Ok (h ++ "," ++ t)%string
     end).
Proof. reflexivity. Qed.

(** [ToString] returns on the convertible values and throws a [TypeError]
    on the others. *)
Lemma ToString_outcome (x : JSON) :
  if convertible x then exists str, ToString x = Ok str
  else ToString x = Throw TypeError.
Proof.
  induction x as [|b|n|str|items IH|props] using JSON_elements_ind;
    try (simpl; eauto; fail).
  - induction IH as [|e r He _ IHr].
    + simpl. eauto.
    + rewrite ToString_array_cons.
      change (convertible (JArray (e :: r)))
        with (convertible e && convertible (JArray r)).
      destruct (convertible e).
      * assert (Hh : exists h, match e with JNull => Ok EmptyString | _ => ToString e end
                               = Ok h).
        { destruct e; eauto. }
        destruct Hh as [h ->]. cbn [bind andb].
        destruct (convertible (JArray r)).
        -- destruct IHr as [t Ht]. destruct r; [eauto|].
           rewrite Ht. cbn [bind]. eauto.
        -- destruct r as [|e' r']; [discriminate|].
           rewrite IHr. reflexivity.
      * cbn [andb]. destruct e; try discriminate; rewrite He; reflexivity.
  - simpl. destruct (has_own props "toString"); simpl; eauto.
Qed.

Lemma Number_outcome (x : JSON) :
  if convertible x then exists n, Number x = Ok n
  else Number x = Throw TypeError.
Proof.
  destruct x as [|b|n|str|items|props]; try (simpl; eauto; fail).
  - pose proof (ToString_outcome (JArray items)) as Hs. unfold Number.
    destruct (convertible (JArray items)).
    + destruct Hs as [str ->]. simpl. eauto.
    + now rewrite Hs.
  - simpl. destruct (has_own props "toString"); simpl; eauto.
Qed.

Lemma toNumberArray_loop_outcome (items : list JSON) :
  forall out,
    if forallb convertible items
    then exists nums, toNumberArray_loop items out = Ok (out ++ nums)
                      /\ length nums <= length items
    else toNumberArray_loop items out = Throw TypeError.
Proof.
  induction items as [|x items IH]; intros out; cbn [forallb toNumberArray_loop].
  - exists []. now rewrite app_nil_r.
  - pose proof (Number_outcome x) as Hx. destruct (convertible x); cbn [andb].
    + destruct Hx as [n ->]. cbn [bind].
      destruct n as [z| | |];
        try (specialize (IH out); destruct (forallb convertible items);
             [destruct IH as [nums [-> Hlen]]; exists nums; split; [reflexivity|simpl; lia]
             |exact IH]).
      specialize (IH (out ++ [z])). destruct (forallb convertible items); [|exact IH].
      destruct IH as [nums [-> Hlen]]. exists (z :: nums).
      rewrite <- app_assoc. split; [reflexivity|simpl; lia].
    + now rewrite Hx.
Qed.

Lemma toNumberArray_loop_numbers (ns : list Num) :
  forall out, toNumberArray_loop (map JNumber ns) out = Ok (out ++ ints_of ns).
Proof.
  induction ns as [|n ns IH]; intros out; simpl.
  - now rewrite app_nil_r.
  - destruct n; rewrite IH; simpl; try reflexivity.
    now rewrite <- app_assoc.
Qed.

End CoercionFacts.

Lemma toNumberArray_cases {P : Platform} (v : option JSON) :
  match v with
  | Some (JArray items) =>
      if forallb convertible items
      then exists nums, toNumberArray v = Ok nums /\ length nums <= length items
      else toNumberArray v = Throw TypeError
  | _ => toNumberArray v = Ok []
  end.
Proof.
  destruct v as [[|b|n|str|items|props]|]; try reflexivity.
  exact (toNumberArray_loop_outcome items []).
Qed.

(** X1: [toNumberArray] gives the empty list for whatever is not an array.
    For an array it gives at most one integer per element, and it throws a
    [TypeError] exactly when an element is an object that owns a [toString]
    property or an array holding one at some depth. *)
Theorem toNumberArray_outcome {P : Platform} (v : option JSON) :
  match v with
  | Some (JArray items) =>
      if forallb convertible items
      then exists nums, toNumberArray v = Ok nums /\ length nums <= length items
      else toNumberArray v = Throw TypeError
  | _ => toNumberArray v = Ok []
  end.
Proof.
  destruct v as [[|b|n|str|items|props]|]; try reflexivity.
  pose proof (toNumberArray_loop_outcome items []) as Hloop.
  cbn [toNumberArray]. destruct (forallb convertible items); exact Hloop.
Qed.

(** X2: on an array of numbers [toNumberArray] returns the integers among
    them, in their order and with their repetitions; fractions, [NaN] and
    the infinities are dropped without an exception. *)
Theorem toNumberArray_keeps_integers {P : Platform} (ns : list Num) :
  toNumberArray (Some (JArray (map JNumber ns))) = Ok (ints_of ns).
Proof. exact (toNumberArray_loop_numbers ns []). Qed.

(** ** The resolution of the chosen indices *)

Lemma seen_Z_In (seen : list Z) (x : Z) :
  existsb (Z.eqb x) seen = true <-> In x seen.
Proof.
  rewrite existsb_exists. split.
  - intros [y [Hy Heq]]. apply Z.eqb_eq in Heq. now subst.
  - intros Hin. exists x. split; [exact Hin|apply Z.eqb_refl].
Qed.

Lemma dedupe_seen_NoDup (l : list Z) :
  forall seen,
    NoDup (JS.dedupe_seen seen l)
    /\ forall x, In x (JS.dedupe_seen seen l) -> ~ In x seen.
Proof.
  induction l as [|y l IH]; intros seen; simpl.
  - split; [constructor|tauto].
  - destruct (existsb (Z.eqb y) seen) eqn:Hs.
    + apply IH.
    + assert (Hy : ~ In y seen).
      { intros Hin. apply seen_Z_In in Hin. congruence. }
      destruct (IH (y :: seen)) as [Hnd Hfresh]. split.
      * constructor; [|exact Hnd]. intros Hin. apply (Hfresh y Hin). now left.
      * intros x [<-|Hin]; [exact Hy|].
        intros Hx. apply (Hfresh x Hin). now right.
Qed.

Lemma chosenIdxes_NoDup (len : nat) (nums : list Z) :
  NoDup (chosenIdxes len nums) /\ length (chosenIdxes len nums) <= MAX_SELECTED.
Proof.
  rewrite chosenIdxes_cases. destruct (0 <? length (unique_of len nums))%nat.
  - unfold unique_of. split.
    + apply NoDup_firstn. apply (dedupe_seen_NoDup _ []).
    + rewrite length_firstn. lia.
  - split.
    + apply Finite.Injective_map_NoDup; [intros a b; apply Nat2Z.inj|apply seq_NoDup].
    + rewrite length_map, length_seq. unfold MAX_SELECTED. lia.
Qed.

Lemma distinct_paths_positions (ranked : list Candidate) (i j : nat) (a b : Candidate) :
  NoDup (map (fun c => path (doc c)) ranked) ->
  nth_error ranked i = Some a ->
  nth_error ranked j = Some b ->
  path (doc a) = path (doc b) ->
  i = j.
Proof.
  intros Hnd Hi Hj Heq.
  assert (Hlt : i < length (map (fun c => path (doc c)) ranked)).
  { rewrite length_map. apply nth_error_Some. congruence. }
  apply (proj1 (NoDup_nth_error _) Hnd i j Hlt).
  rewrite !nth_error_map, Hi, Hj. simpl. now rewrite Heq.
Qed.

Lemma array_get_position {A : Type} (l : list A) (n : Z) (c : A) :
  array_get l (n - 1) = Some c ->
  (1 <= n)%Z /\ nth_error l (Z.to_nat (n - 1)) = Some c.
Proof.
  unfold array_get. destruct (Z.ltb_spec (n - 1) 0); [discriminate|].
  intros Hc. split; [lia|exact Hc].
Qed.

(** With candidates of distinct paths the loop takes the document of every
    chosen index, in order. *)
Lemma pick_loop_exact (ranked : list Candidate) :
  NoDup (map (fun c => path (doc c)) ranked) ->
  forall chosen seen picked,
    Forall (fun n => (1 <= n <= Z.of_nat (length ranked))%Z) chosen ->
    NoDup chosen ->
    (forall n c, In n chosen -> array_get ranked (n - 1) = Some c ->
                 ~ In (path (doc c)) seen) ->
    length picked + length chosen <= MAX_SELECTED ->
    pick_loop ranked chosen seen picked = Ok (picked ++ docs_at ranked chosen).
Proof.
  intros Hpaths chosen.
  induction chosen as [|n chosen IH]; intros seen picked Hb Hnd Hfresh Hlen;
    cbn [pick_loop].
  - unfold docs_at. simpl. now rewrite app_nil_r.
  - inversion Hb as [|? ? Hn Hb']; subst. inversion Hnd as [|? ? Hnotin Hnd']; subst.
    destruct (array_get_in_bounds ranked n Hn) as [c Hc].
    unfold docs_at. cbn [flat_map]. fold (docs_at ranked chosen). rewrite Hc.
    assert (Hs : set_has seen (path (doc c)) = false).
    { destruct (set_has seen (path (doc c))) eqn:Hs; [|reflexivity].
      apply set_has_In in Hs. exfalso. apply (Hfresh n c); simpl; auto. }
    rewrite Hs. cbn [negb].
    destruct (Nat.leb_spec MAX_SELECTED (length (picked ++ [doc c]))) as [Hge|Hlt].
    + rewrite length_app in Hge. simpl in Hge, Hlen.
      destruct chosen; [|simpl in Hlen; lia].
      unfold docs_at. simpl. reflexivity.
    + rewrite IH; try assumption.
      * now rewrite <- app_assoc.
      * intros m c' Hm Hc' [Heq|Hin].
        -- apply array_get_position in Hc. apply array_get_position in Hc'.
           destruct Hc as [Hn1 Hc], Hc' as [Hm1 Hc'].
           pose proof (distinct_paths_positions ranked _ _ c c' Hpaths Hc Hc' Heq) as Hpos.
           apply Hnotin. replace n with m by lia. exact Hm.
        -- apply (Hfresh m c'); simpl; auto.
      * rewrite length_app in *. simpl in *. lia.
Qed.

Lemma docs_at_length (ranked : list Candidate) (idxs : list Z) :
  Forall (fun n => (1 <= n <= Z.of_nat (length ranked))%Z) idxs ->
  length (docs_at ranked idxs) = length idxs.
Proof.
  induction 1 as [|n idxs Hn _ IH]; [reflexivity|].
  unfold docs_at. cbn [flat_map]. fold (docs_at ranked idxs).
  destruct (array_get_in_bounds ranked n Hn) as [c ->]. simpl. now rewrite IH.
Qed.

(** X3: over the candidates the prefilter returns, whenever the field read
    and the coercion return, the selection returns exactly the documents at
    the chosen positions, in the order the selector gave them: the first
    four distinct in-range integers, or positions 1..min(3, n) when there
    are none.  The choice is not re-sorted by rank and the second
    de-duplication, by path, removes nothing. *)
Theorem selection_resolves_chosen_positions {P : Platform}
    (rows : list Row) (query : string) (k : Z)
    (payload : JSON) (v : option JSON) (nums : list Z) :
  get_field payload "selected_indices" = Ok v ->
  toNumberArray v = Ok nums ->
  select_docs payload (rank_index (build_index rows) query k)
  = Ok (docs_at (rank_index (build_index rows) query k)
          (chosenIdxes (length (rank_index (build_index rows) query k)) nums))
  /\ NoDup (chosenIdxes (length (rank_index (build_index rows) query k)) nums)
  /\ length (docs_at (rank_index (build_index rows) query k)
               (chosenIdxes (length (rank_index (build_index rows) query k)) nums))
     = length (chosenIdxes (length (rank_index (build_index rows) query k)) nums).
Proof.
  intros Hv Hn.
  destruct (chosenIdxes_NoDup (length (rank_index (build_index rows) query k)) nums)
    as [Hnd Hlen].
  pose proof (chosenIdxes_bounds (length (rank_index (build_index rows) query k)) nums)
    as Hb.
  split; [|split; [exact Hnd|now apply docs_at_length]].
  rewrite (select_docs_unfold _ _ _ _ Hv Hn).
  rewrite pick_loop_exact; try assumption.
  - reflexivity.
  - apply rank_index_NoDup, build_index_NoDup.
  - intros n c _ _ [].
Qed.

Lemma selection_resolves_chosen_positions_witness :
  select_docs (P := Demo.platform)
    (parse_payload (P := Demo.platform) (Demo.completion (Some Demo.picks_body)))
    (rank_index (build_index Demo.rows) "hardware revenue" PREFILTER_TOP_K)
  = Ok [Demo.doc1; Demo.doc2].
Proof.
  apply (selection_resolves_chosen_positions (P := Demo.platform)
           Demo.rows "hardware revenue" PREFILTER_TOP_K
           (parse_payload (P := Demo.platform) (Demo.completion (Some Demo.picks_body)))
           (Some (JArray [JNumber (Int 2); JNumber (Int 2); JNumber (Int 9);
                          JNumber (Int 1)]))
           [2; 2; 9; 1]%Z);
    vm_compute; reflexivity.
Defined.

(** X4: over a non-empty candidate list the selection has two outcomes.
    It throws, always a [TypeError], exactly when the payload is [null] or
    [selected_indices] is an array with an element that cannot be
    converted; otherwise it returns one to four documents of the candidate
    list, no path twice. *)
Theorem selection_outcome {P : Platform} (payload : JSON) (ranked : list Candidate) :
  ranked <> [] ->
  match select_docs payload ranked with
  | Ok docs =>
      payload <> JNull
      /\ (forall items,
             get_field payload "selected_indices" = Ok (Some (JArray items)) ->
             forallb convertible items = true)
      /\ 1 <= length docs <= MAX_SELECTED
      /\ NoDup (map path docs)
      /\ incl docs (map doc ranked)
  | Throw e =>
      e = TypeError
      /\ (payload = JNull
          \/ exists items,
               get_field payload "selected_indices" = Ok (Some (JArray items))
               /\ forallb convertible items = false)
  end.
Proof.
  intros Hne.
  destruct (select_docs payload ranked) as [docs|e] eqn:Hsel.
  - split; [intros ->; discriminate Hsel|].
    split; [|now apply (select_docs_sound payload ranked docs)].
    intros items Hitems. unfold select_docs in Hsel. rewrite Hitems in Hsel.
    cbn [bind] in Hsel.
    pose proof (toNumberArray_cases (Some (JArray items))) as Hout.
    cbn beta iota in Hout.
    destruct (forallb convertible items); [reflexivity|].
    rewrite Hout in Hsel. discriminate Hsel.
  - unfold select_docs in Hsel.
    destruct payload as [|b|n|str|items|props]; cbn [get_field bind] in Hsel.
    + inversion Hsel. auto.
    + pose proof (pick_loop_total ranked _ (chosenIdxes_bounds (length ranked) [])
                    [] []) as [docs Hd].
      simpl in Hsel. congruence.
    + pose proof (pick_loop_total ranked _ (chosenIdxes_bounds (length ranked) [])
                    [] []) as [docs Hd].
      simpl in Hsel. congruence.
    + pose proof (pick_loop_total ranked _ (chosenIdxes_bounds (length ranked) [])
                    [] []) as [docs Hd].
      simpl in Hsel. congruence.
    + pose proof (pick_loop_total ranked _ (chosenIdxes_bounds (length ranked) [])
                    [] []) as [docs Hd].
      simpl in Hsel. congruence.
    + pose proof (toNumberArray_cases (own_prop props "selected_indices")) as Hout.
      destruct (own_prop props "selected_indices") as [[|b|n|str|items|props']|] eqn:Hp;
        try (rewrite Hout in Hsel; cbn [bind] in Hsel;
             pose proof (pick_loop_total ranked _
                           (chosenIdxes_bounds (length ranked) []) [] []) as [docs Hd];
             congruence).
      destruct (forallb convertible items) eqn:Hconv.
      * destruct Hout as [nums [Hn _]]. rewrite Hn in Hsel. cbn [bind] in Hsel.
        pose proof (pick_loop_total ranked _
                      (chosenIdxes_bounds (length ranked) nums) [] []) as [docs Hd].
        congruence.
      * rewrite Hout in Hsel. cbn [bind] in Hsel. inversion Hsel.
        split; [reflexivity|]. right. exists items.
        split; [cbn [get_field]; now rewrite Hp|exact Hconv].
Qed.

Lemma selection_outcome_witness :
  match select_docs (P := Demo.platform)
          (parse_payload (P := Demo.platform)
             (Demo.completion (Some Demo.odd_object_body)))
          [ {| idx := 0; doc := Demo.doc1; s := 1 |} ] with
  | Ok docs => False
  | Throw e => e = TypeError
  end.
Proof.
  pose proof (selection_outcome (P := Demo.platform)
                (parse_payload (P := Demo.platform)
                   (Demo.completion (Some Demo.odd_object_body)))
                [ {| idx := 0; doc := Demo.doc1; s := 1 |} ]) as Hout.
  vm_compute in Hout |- *. apply Hout. discriminate.
Defined.

(** ** Strings inside strings *)

Lemma str_app_assoc (a b c : string) : ((a ++ b) ++ c = a ++ (b ++ c))%string.
Proof. induction a as [|x a IH]; simpl; [reflexivity|now rewrite IH]. Qed.

Lemma str_app_nil_r (a : string) : (a ++ EmptyString)%string = a.
Proof. induction a as [|x a IH]; simpl; [reflexivity|now rewrite IH]. Qed.

Lemma prefix_app (x b : string) : String.prefix x (x ++ b) = true.
Proof.
  induction x as [|c x IH]; simpl; [now destruct b|].
  destruct (ascii_dec c c); [exact IH|congruence].
Qed.

Lemma includes_middle (a x b : string) : JS.includes (a ++ x ++ b) x = true.
Proof.
  induction a as [|c a IH].
  - simpl append. destruct (x ++ b)%string eqn:Hxb; cbn [JS.includes];
      rewrite <- Hxb, prefix_app; reflexivity.
  - cbn [append JS.includes]. rewrite IH. apply orb_true_r.
Qed.

Lemma join_holds (sep x : string) (l : list string) :
  In x l -> exists a b, JS.join sep l = (a ++ x ++ b)%string.
Proof.
  unfold JS.join. induction l as [|y l IH]; intros Hin; [contradiction|].
  destruct Hin as [->|Hin].
  - destruct l as [|z l].
    + exists EmptyString, EmptyString. simpl. now rewrite str_app_nil_r.
    + exists EmptyString, (sep ++ String.concat sep (z :: l))%string. reflexivity.
  - destruct (IH Hin) as [a [b Hab]]. destruct l as [|z l]; [contradiction|].
    exists (y ++ sep ++ a)%string, b.
    change (String.concat sep (y :: z :: l))
      with (y ++ sep ++ String.concat sep (z :: l))%string.
    rewrite Hab. now rewrite !str_app_assoc.
Qed.

Lemma includes_within (outer inner x : string) :
  (exists a b, outer = (a ++ inner ++ b)%string) ->
  (exists a b, inner = (a ++ x ++ b)%string) ->
  exists a b, outer = (a ++ x ++ b)%string.
Proof.
  intros [a [b ->]] [a' [b' ->]]. exists (a ++ a')%string, (b' ++ b)%string.
  now rewrite !str_app_assoc.
Qed.

Lemma mapi_from_nth {A B : Type} (f : A -> nat -> B) (l : list A) :
  forall start i x,
    nth_error l i = Some x ->
    nth_error (JS.mapi_from start f l) i = Some (f x (start + i)).
Proof.
  induction l as [|y l IH]; intros start [|i] x Hx; simpl in *; try discriminate.
  - inversion Hx. now rewrite Nat.add_0_r.
  - rewrite (IH (S start) i x Hx). f_equal. f_equal. lia.
Qed.

(** ** The two prompts *)

(** X5: the selector prompt is the system instruction followed by one user
    message that holds the question and, for every candidate, an entry with
    its number, its path and its preview.  The number shown for a candidate
    is its position counted from 1, which is the index the selection
    resolves back to that same candidate; scores and index positions are
    not shown. *)
Theorem selector_prompt_numbers_match_resolution {H : Host}
    (question : string) (ranked : list Candidate) :
  exists listing,
    buildSelectorPrompt question (map (fun c => (idx c, doc c)) ranked)
    = [ {| role := system; content := SYSTEM_SELECTOR |};
        {| role := user;
           content := ("QUESTION: " ++ question ++ JS.LF ++ JS.LF
                       ++ "CANDIDATE PATHS:" ++ JS.LF ++ listing)%string |} ]
    /\ forall i c,
         nth_error ranked i = Some c ->
         JS.includes listing (listing_entry i (doc c)) = true
         /\ array_get ranked (Z.of_nat (i + 1) - 1) = Some c.
Proof.
  eexists. split; [reflexivity|].
  intros i c Hc. split.
  - assert (Hin : In (listing_entry i (doc c))
                    (JS.mapi (fun (p : nat * PathDoc) j =>
                                ("#" ++ JS.decimal (j + 1) ++ JS.LF
                                 ++ "path: " ++ path (snd p) ++ JS.LF
                                 ++ "preview: " ++ preview (snd p))%string)
                       (map (fun c => (idx c, doc c)) ranked))).
    { apply nth_error_In with (n := i). unfold JS.mapi.
      rewrite (mapi_from_nth _ _ 0 i (idx c, doc c)); [reflexivity|].
      rewrite nth_error_map, Hc. reflexivity. }
    destruct (join_holds (JS.LF ++ JS.LF)%string _ _ Hin) as [a [b ->]].
    apply includes_middle.
  - unfold array_get. destruct (Z.ltb_spec (Z.of_nat (i + 1) - 1) 0); [lia|].
    replace (Z.to_nat (Z.of_nat (i + 1) - 1)) with i by lia. exact Hc.
Qed.

(** X6: the answer prompt is the system instruction followed by one user
    message that holds the question and, for every picked document, its
    whole block: the path in brackets and all of its fragments joined by
    blank lines.  Nothing of a picked document is clipped, unlike the
    500-character preview the selector saw. *)
Theorem answer_prompt_holds_whole_documents {H : Host}
    (question : string) (pickedDocs : list PathDoc) :
  exists ctx,
    buildAnswerPrompt question pickedDocs
    = [ {| role := system; content := SYSTEM_ANSWER |};
        {| role := user;
           content := ("Question: " ++ question ++ JS.LF ++ JS.LF
                       ++ "Context:" ++ JS.LF ++ ctx)%string |} ]
    /\ forall d,
         In d pickedDocs ->
         JS.includes ctx (context_block d) = true
         /\ JS.includes ctx ("[" ++ path d ++ "]") = true
         /\ forall fragment, In fragment (contents d) ->
                             JS.includes ctx fragment = true.
Proof.
  exists (JS.join (JS.LF ++ JS.LF)%string (map context_block pickedDocs)).
  split; [reflexivity|].
  intros d Hd.
  assert (Hblock : exists a b,
             JS.join (JS.LF ++ JS.LF)%string (map context_block pickedDocs)
             = (a ++ context_block d ++ b)%string).
  { apply join_holds. now apply in_map. }
  split; [|split].
  - destruct Hblock as [a [b ->]]. apply includes_middle.
  - destruct (includes_within _ _ ("[" ++ path d ++ "]")%string Hblock) as [a [b ->]].
    + exists EmptyString, (JS.LF ++ JS.join (JS.LF ++ JS.LF) (contents d))%string.
      unfold context_block. simpl. now rewrite !str_app_assoc.
    + apply includes_middle.
  - intros fragment Hf.
    destruct (join_holds (JS.LF ++ JS.LF)%string _ _ Hf) as [a [b Hab]].
    destruct (includes_within _ _ fragment Hblock) as [a' [b' ->]].
    + exists ("[" ++ path d ++ "]" ++ JS.LF ++ a)%string, b.
      unfold context_block. rewrite Hab. now rewrite !str_app_assoc.
    + apply includes_middle.
Qed.

(** ** More on the prefilter *)

Lemma lower_char_word (c : ascii) :
  JS.is_word_char (JS.lower_char c) = JS.is_word_char c
  /\ (JS.is_word_char (JS.lower_char c) = true -> token_char (JS.lower_char c) = true).
Proof.
  destruct c as [b0 b1 b2 b3 b4 b5 b6 b7].
  destruct b0, b1, b2, b3, b4, b5, b6, b7; vm_compute; split; congruence.
Qed.

Lemma all_chars_app (p : ascii -> bool) (a b : string) :
  all_chars p (a ++ b) = all_chars p a && all_chars p b.
Proof.
  induction a as [|c a IH]; simpl; [reflexivity|].
  now rewrite IH, andb_assoc.
Qed.

Lemma split_W_from_tokens (str : string) :
  forall cur in_sep,
    all_chars token_char cur = true ->
    Forall (fun t => all_chars token_char t = true)
      (JS.split_W_from cur in_sep (JS.toLowerCase str)).
Proof.
  induction str as [|c str IH]; intros cur in_sep Hcur; simpl.
  - now repeat constructor.
  - destruct (lower_char_word c) as [_ Htok].
    destruct (JS.is_word_char (JS.lower_char c)) eqn:Hw.
    + apply IH. rewrite all_chars_app, Hcur. simpl. now rewrite (Htok eq_refl).
    + destruct in_sep; [now apply IH|].
      constructor; [exact Hcur|]. now apply IH.
Qed.

Lemma split_W_from_no_word (low : string) :
  forall in_sep,
    all_chars (fun c => negb (JS.is_word_char c)) low = true ->
    Forall (fun t => t = EmptyString) (JS.split_W_from EmptyString in_sep low).
Proof.
  induction low as [|c low IH]; intros in_sep Hall; simpl.
  - now repeat constructor.
  - simpl in Hall. apply andb_true_iff in Hall. destruct Hall as [Hc Hall].
    apply negb_true_iff in Hc. rewrite Hc.
    destruct in_sep; [now apply IH|].
    constructor; [reflexivity|now apply IH].
Qed.

Lemma no_word_no_terms (query : string) :
  all_chars (fun c => negb (JS.is_word_char c)) (JS.toLowerCase query) = true ->
  terms_of query = [].
Proof.
  intros Hall. unfold terms_of, JS.split_W.
  pose proof (split_W_from_no_word (JS.toLowerCase query) false Hall) as Hf.
  induction Hf as [|t l Ht _ IH]; simpl; [reflexivity|].
  subst t. exact IH.
Qed.

Lemma sort_of_ties {A : Type} (cmp : A -> A -> Z) (l : list A) :
  (forall a b, In a l -> In b l -> (cmp a b <= 0)%Z) -> JS.sort cmp l = l.
Proof.
  induction l as [|x l IH]; intros Hties; simpl; [reflexivity|].
  rewrite IH by (intros a b Ha Hb; apply Hties; now right).
  destruct l as [|y l]; simpl; [reflexivity|].
  destruct (Z.ltb_spec 0 (cmp x y)) as [Hlt|_]; [|reflexivity].
  specialize (Hties x y (or_introl eq_refl) (or_intror (or_introl eq_refl))). lia.
Qed.

Lemma mapi_from_ext {A B : Type} (f g : A -> nat -> B) (l : list A) :
  forall start, (forall x i, f x i = g x i) ->
                JS.mapi_from start f l = JS.mapi_from start g l.
Proof.
  induction l as [|x l IH]; intros start Hfg; simpl; [reflexivity|].
  now rewrite Hfg, IH.
Qed.

Lemma rank_index_count (index : list PathDoc) (query : string) (k : nat) :
  rank_index index query (Z.of_nat k)
  = firstn k (JS.sort (fun a b => (s b - s a)%Z) (JS.mapi (candidate_of query) index)).
Proof.
  unfold rank_index.
  rewrite <- Nat2Z.inj_min, array_slice0_count.
  destruct (Nat.min_spec k (length (JS.sort (fun a b => (s b - s a)%Z)
                                      (JS.mapi (candidate_of query) index))))
    as [[_ ->]|[Hle ->]]; [reflexivity|].
  now rewrite firstn_all, firstn_all2.
Qed.

(** X7: for a query whose lower-cased form holds no word character
    ([A-Za-z0-9_]) there is no token, every document scores 0 and the
    prefilter returns the first [k] documents of the index in index order.
    The condition is on the lower-cased query, the string that is split. *)
Theorem query_without_words_ranks_in_index_order
    (index : list PathDoc) (query : string) (k : nat) :
  all_chars (fun c => negb (JS.is_word_char c)) (JS.toLowerCase query) = true ->
  terms_of query = []
  /\ rank_index index query (Z.of_nat k)
     = firstn k (JS.mapi (fun d i => {| idx := i; doc := d; s := 0 |}) index).
Proof.
  intros Hall. pose proof (no_word_no_terms query Hall) as Hterms.
  split; [exact Hterms|].
  rewrite rank_index_count.
  assert (Hcands : JS.mapi (candidate_of query) index
                   = JS.mapi (fun d i => {| idx := i; doc := d; s := 0 |}) index).
  { apply mapi_from_ext. intros d i. unfold candidate_of, score.
    rewrite Hterms. reflexivity. }
  rewrite Hcands. f_equal. apply sort_of_ties.
  intros a b Ha Hb.
  assert (Hzero : Forall (fun c => s c = 0%Z)
                    (JS.mapi (fun d i => {| idx := i; doc := d; s := 0 |}) index))
    by (apply mapi_from_Forall; reflexivity).
  rewrite Forall_forall in Hzero.
  rewrite (Hzero a Ha), (Hzero b Hb). lia.
Qed.

Lemma query_without_words_witness :
  rank_index [Demo.doc1; Demo.doc2] "?! ..." (Z.of_nat 1)
  = [ {| idx := 0; doc := Demo.doc1; s := 0 |} ].
Proof.
  apply (query_without_words_ranks_in_index_order [Demo.doc1; Demo.doc2] "?! ..." 1).
  reflexivity.
Defined.

Lemma filter_none {A : Type} (p : A -> bool) (l : list A) :
  length (filter p l) = 0 <-> forall x, In x l -> p x = false.
Proof.
  induction l as [|y l IH]; simpl; [tauto|].
  destruct (p y) eqn:Hy; simpl.
  - split; [discriminate|]. intros Hall.
    specialize (Hall y (or_introl eq_refl)). congruence.
  - rewrite IH. split.
    + intros Hall x [<-|Hx]; auto.
    + intros Hall x Hx. apply Hall. now right.
Qed.

(** X8: the score of a document lies between 0 and three times the number
    of query tokens, and it is 0 exactly when no token occurs in the
    lower-cased path nor in the lower-cased preview. *)
Theorem score_bounds_and_zero (d : PathDoc) (query : string) (i : nat) :
  (0 <= s (candidate_of query d i) <= 3 * Z.of_nat (length (terms_of query)))%Z
  /\ (s (candidate_of query d i) = 0%Z
      <-> forall t, In t (terms_of query) ->
                    JS.includes (JS.toLowerCase (path d)) t = false
                    /\ JS.includes (JS.toLowerCase (preview d)) t = false).
Proof.
  cbn [candidate_of s]. rewrite !score_termHits. unfold termHits.
  pose proof (filter_length_le (JS.includes (JS.toLowerCase (path d))) (terms_of query)).
  pose proof (filter_length_le (JS.includes (JS.toLowerCase (preview d))) (terms_of query)).
  split; [lia|].
  pose proof (filter_none (JS.includes (JS.toLowerCase (path d))) (terms_of query)) as Hp.
  pose proof (filter_none (JS.includes (JS.toLowerCase (preview d))) (terms_of query)) as Hv.
  split.
  - intros Hz t Ht. split; [apply Hp|apply Hv]; try assumption; lia.
  - intros Hall.
    assert (H1 : length (filter (JS.includes (JS.toLowerCase (path d))) (terms_of query)) = 0)
      by (apply Hp; intros t Ht; apply Hall, Ht).
    assert (H2 : length (filter (JS.includes (JS.toLowerCase (preview d))) (terms_of query)) = 0)
      by (apply Hv; intros t Ht; apply Hall, Ht).
    lia.
Qed.

Lemma sort_insert_Permutation {A : Type} (cmp : A -> A -> Z) (x : A) (l : list A) :
  Permutation (JS.sort_insert cmp x l) (x :: l).
Proof.
  induction l as [|y l IH]; simpl; [reflexivity|].
  destruct (0 <? cmp x y)%Z; [|reflexivity].
  rewrite IH. apply perm_swap.
Qed.

Lemma sort_Permutation {A : Type} (cmp : A -> A -> Z) (l : list A) :
  Permutation (JS.sort cmp l) l.
Proof.
  induction l as [|x l IH]; simpl; [reflexivity|].
  rewrite sort_insert_Permutation. now constructor.
Qed.

Lemma mapi_from_docs (query : string) (index : list PathDoc) :
  forall start, map doc (JS.mapi_from start (candidate_of query) index) = index.
Proof. induction index as [|d index IH]; intros start; simpl; [reflexivity|now rewrite IH]. Qed.

(** X9: the prefilter drops no document for its score: ranking with [k]
    equal to the size of the index returns every document exactly once, a
    smaller [k] returns the first [k] of that full ranking, and an index of
    at most [k] documents is returned whole, documents of score 0
    included. *)
Theorem prefilter_is_a_prefix_of_all_documents
    (index : list PathDoc) (query : string) (k : nat) :
  Permutation (map doc (rank_index index query (Z.of_nat (length index)))) index
  /\ rank_index index query (Z.of_nat k)
     = firstn k (rank_index index query (Z.of_nat (length index)))
  /\ (length index <= k ->
      Permutation (map doc (rank_index index query (Z.of_nat k))) index).
Proof.
  assert (Hall : forall n, length index <= n ->
             rank_index index query (Z.of_nat n)
             = JS.sort (fun a b => (s b - s a)%Z) (JS.mapi (candidate_of query) index)).
  { intros n Hn. rewrite rank_index_count. apply firstn_all2.
    rewrite sort_length. unfold JS.mapi. now rewrite mapi_from_length. }
  assert (Hperm : Permutation
                    (map doc (JS.sort (fun a b => (s b - s a)%Z)
                                (JS.mapi (candidate_of query) index))) index).
  { rewrite sort_Permutation. unfold JS.mapi. now rewrite mapi_from_docs. }
  split; [|split].
  - now rewrite Hall.
  - rewrite (Hall (length index)) by lia. apply rank_index_count.
  - intros Hk. now rewrite Hall.
Qed.

(** X10: every token the scorer looks for is non-empty and made of the
    characters [a-z0-9_] only: the query is lower-cased before it is split
    and the empty pieces are dropped. *)
Theorem query_tokens_are_lowercase_words (query : string) :
  Forall (fun t => t <> EmptyString /\ all_chars token_char t = true) (terms_of query).
Proof.
  unfold terms_of, JS.split_W.
  pose proof (split_W_from_tokens query EmptyString false eq_refl) as Htok.
  apply Forall_forall. intros t Ht. apply filter_In in Ht. destruct Ht as [Hin Htruthy].
  rewrite Forall_forall in Htok. split; [|now apply Htok].
  intros ->. discriminate Htruthy.
Qed.

(** ** Trimming *)

Lemma trimEnd_cons (c : ascii) (r : string) :
  JS.trimEnd (String c r)
  = match JS.trimEnd r with
    | EmptyString => if JS.is_white_space c then EmptyString else String c EmptyString
    | r' => String c r'
    end.
Proof. reflexivity. Qed.

Lemma trimEnd_idem (str : string) : JS.trimEnd (JS.trimEnd str) = JS.trimEnd str.
Proof.
  induction str as [|c r IH]; [reflexivity|].
  rewrite (trimEnd_cons c r).
  destruct (JS.trimEnd r) as [|c' r'] eqn:Hr.
  - destruct (JS.is_white_space c) eqn:Hc; [reflexivity|].
    rewrite trimEnd_cons. cbn [JS.trimEnd]. now rewrite Hc.
  - rewrite trimEnd_cons, IH. reflexivity.
Qed.

Lemma trimEnd_head (c : ascii) (r : string) :
  JS.is_white_space c = false -> exists r', JS.trimEnd (String c r) = String c r'.
Proof.
  intros Hc. simpl. destruct (JS.trimEnd r); [rewrite Hc|]; eauto.
Qed.

Lemma trimEnd_keeps_head (str : string) :
  match JS.trimEnd str with
  | EmptyString => True
  | String c _ => exists r, str = String c r
  end.
Proof.
  destruct str as [|c r]; simpl; [exact I|].
  destruct (JS.trimEnd r); [destruct (JS.is_white_space c)|]; eauto.
Qed.

Lemma trimStart_head (str : string) :
  match JS.trimStart str with
  | EmptyString => True
  | String c _ => JS.is_white_space c = false
  end.
Proof.
  induction str as [|c r IH]; simpl; [exact I|].
  destruct (JS.is_white_space c) eqn:Hc; [exact IH|exact Hc].
Qed.

(** What [trim] returns starts with a character that is no white space. *)
Lemma trim_head (str : string) :
  match JS.trim str with
  | EmptyString => True
  | String c _ => JS.is_white_space c = false
  end.
Proof.
  unfold JS.trim. pose proof (trimStart_head str) as Hs.
  pose proof (trimEnd_keeps_head (JS.trimStart str)) as He.
  destruct (JS.trimEnd (JS.trimStart str)) as [|c r]; [exact I|].
  destruct He as [r' Hr']. now rewrite Hr' in Hs.
Qed.

Lemma trim_idem (str : string) : JS.trim (JS.trim str) = JS.trim str.
Proof.
  pose proof (trim_head str) as Hh. unfold JS.trim in *.
  destruct (JS.trimEnd (JS.trimStart str)) as [|c r] eqn:Ht; [reflexivity|].
  cbn [JS.trimStart]. rewrite Hh. rewrite <- Ht. apply trimEnd_idem.
Qed.

Lemma trim_of_head (c : ascii) (r : string) :
  JS.is_white_space c = false -> exists r', JS.trim (String c r) = String c r'.
Proof.
  intros Hc. unfold JS.trim. cbn [JS.trimStart]. rewrite Hc.
  now apply trimEnd_head.
Qed.

Lemma slice0_all (n : nat) (str : string) :
  String.length str <= n -> JS.slice0 n str = str.
Proof.
  revert str. induction n as [|n IH]; intros [|c r] Hlen; simpl in *;
    try reflexivity; try lia.
  now rewrite IH by lia.
Qed.

(** A trimmed, non-empty value makes a non-empty question. *)
Lemma question_of_trimmed (value : string) :
  JS.trim value = value -> value <> EmptyString ->
  JS.truthy (question_of value) = true.
Proof.
  intros Htrim Hne. pose proof (trim_head value) as Hh. rewrite Htrim in Hh.
  destruct value as [|c r]; [contradiction|].
  unfold question_of, MAX_QUESTION_LEN.
  change (JS.slice0 1000 (String c r)) with (String c (JS.slice0 999 r)).
  destruct (trim_of_head c (JS.slice0 999 r) Hh) as [r' ->]. reflexivity.
Qed.

(** ** More on the index *)

Lemma map_total_app (m1 m2 : PathMap) : map_total (m1 ++ m2) = map_total m1 + map_total m2.
Proof. unfold map_total. now rewrite map_app, list_sum_app. Qed.

Lemma map_push_total (m : PathMap) (k c : string) :
  map_has m k = true -> map_total (map_push m k c) = S (map_total m).
Proof.
  induction m as [|[k' cs] m IH]; simpl; [discriminate|].
  destruct (k' =? k) eqn:Hk; simpl; intros Hhas.
  - unfold map_total. simpl. rewrite length_app. simpl. lia.
  - unfold map_total in *. simpl. rewrite (IH Hhas). lia.
Qed.

Lemma map_has_app (m1 m2 : PathMap) (k : string) :
  map_has (m1 ++ m2) k = map_has m1 k || map_has m2 k.
Proof.
  induction m1 as [|[k' cs] m1 IH]; simpl; [reflexivity|].
  now rewrite IH, orb_assoc.
Qed.

Lemma index_row_total (m : PathMap) (r : Row) :
  map_total (index_row m r) = map_total m + (if row_usable r then 1 else 0).
Proof.
  rewrite index_row_unfold. destruct (row_usable r); [|lia].
  destruct (map_has m (row_path r)) eqn:Hhas.
  - rewrite map_push_total by exact Hhas. lia.
  - rewrite map_push_total.
    + rewrite map_total_app. unfold map_total at 2. simpl. lia.
    + rewrite map_has_app. simpl. rewrite String.eqb_refl. apply orb_true_r.
Qed.

Lemma group_rows_total (rows : list Row) :
  map_total (group_rows rows) = length (filter row_usable rows).
Proof.
  induction rows as [|r rows IH] using rev_ind; [reflexivity|].
  unfold group_rows in *. rewrite fold_left_app. simpl.
  rewrite index_row_total, IH, filter_app, length_app. simpl.
  destruct (row_usable r); simpl; lia.
Qed.

Lemma row_usable_trimmed (r : Row) :
  row_usable r = true ->
  trimmed (row_path r) /\ trimmed (row_content r) /\ row_content r <> EmptyString.
Proof.
  unfold row_usable, trimmed, row_path, row_content. intros Hu.
  apply andb_true_iff in Hu. destruct Hu as [_ Hc].
  rewrite !trim_idem. repeat split. intros Heq. rewrite Heq in Hc. discriminate.
Qed.

(** X11: whatever the rows, every path and every fragment the index stores
    is trimmed, no fragment is empty, no preview is longer than 500
    characters, and the documents hold as many fragments in all as there are
    rows with a non-empty trimmed path and content: no such row is lost and
    none is filed twice. *)
Theorem index_entries_trimmed_and_counted (rows : list Row) :
  Forall (fun d =>
            trimmed (path d)
            /\ Forall (fun fragment => trimmed fragment /\ fragment <> EmptyString)
                 (contents d)
            /\ String.length (preview d) <= 500)
    (build_index rows)
  /\ fragment_count (build_index rows) = length (filter row_usable rows).
Proof.
  split.
  - rewrite build_index_spec. unfold group_spec. rewrite map_map.
    apply Forall_forall. intros d Hd. apply in_map_iff in Hd.
    destruct Hd as [k [<- Hk]].
    cbn [doc_of_entry path contents preview fst snd].
    split; [|split].
    + apply (distinct_seen_spec (usable_paths rows) []) in Hk. destruct Hk as [Hk _].
      unfold usable_paths in Hk. apply in_map_iff in Hk.
      destruct Hk as [r [<- Hr]]. apply filter_In in Hr.
      now apply row_usable_trimmed.
    + unfold fragments_of. apply Forall_forall. intros f Hf.
      apply in_map_iff in Hf. destruct Hf as [r [<- Hr]].
      apply filter_In in Hr. destruct Hr as [_ Hr]. apply andb_true_iff in Hr.
      destruct (row_usable_trimmed r (proj1 Hr)) as [_ Hc]. exact Hc.
    + apply slice0_length.
  - unfold build_index, fragment_count. rewrite map_map.
    cbn [doc_of_entry contents]. apply group_rows_total.
Qed.

(** ** More on [POST] *)

Lemma build_index_empty (rows : list Row) :
  filter row_usable rows = [] -> build_index rows = [].
Proof.
  intros Hnone. pose proof (build_index_paths rows) as Hp.
  unfold usable_paths in Hp. rewrite Hnone in Hp.
  now apply map_eq_nil in Hp.
Qed.

Section MoreRouteFacts.
Context {P : Platform} {H : Host}.

Lemma answer_from_status (question : string) (ranked : list Candidate) (resp : Response) :
  answer_from question ranked = Ok resp -> status resp = 200.
Proof.
  unfold answer_from. destruct (length ranked =? 0)%nat.
  - intros Hr. inversion Hr. reflexivity.
  - destruct (chat_create (selector_params question ranked)) as [sel|]; [|discriminate].
    cbn [bind].
    destruct (select_docs (parse_payload sel) ranked) as [docs|]; [|discriminate].
    cbn [bind].
    destruct (chat_create (answer_params question docs)) as [ans|]; [|discriminate].
    cbn [bind]. intros Hr. inversion Hr. reflexivity.
Qed.

Lemma loadPathIndex_store (st : Store) :
  (forall index, PATH_INDEX st = Some index -> loadPathIndex st = (Ok index, st))
  /\ (PATH_INDEX st = None ->
      snd (loadPathIndex st)
      = {| PATH_INDEX := match readMetaCsv (reads st) with
                         | Ok rows => Some (build_index rows)
                         | Throw _ => None
                         end;
           reads := S (reads st) |}).
Proof.
  unfold loadPathIndex. split.
  - intros index ->. reflexivity.
  - intros ->. destruct (readMetaCsv (reads st)); reflexivity.
Qed.

Lemma topPathCandidates_store (query : string) (k : Z) (st : Store) :
  snd (topPathCandidates query k st) = snd (loadPathIndex st).
Proof.
  unfold topPathCandidates. destruct (loadPathIndex st) as [[index|e] st']; reflexivity.
Qed.

(** The store after [POST] is the store before, or the store after one call
    of the loader. *)
Lemma POST_store (req : Request) (st : Store) :
  snd (POST req st) = st \/ snd (POST req st) = snd (loadPathIndex st).
Proof.
  unfold POST, POST_try. destruct apiKey_missing; [now left|].
  destruct (userScenario_of req) as [u|e]; [|now left].
  destruct (negb (JS.truthy (question_of u))); [now left|].
  pose proof (topPathCandidates_store (question_of u) PREFILTER_TOP_K st) as Ht.
  destruct (topPathCandidates (question_of u) PREFILTER_TOP_K st) as [[ranked|e] st'].
  - right. simpl in Ht. rewrite <- Ht.
    destruct (answer_from (question_of u) ranked); reflexivity.
  - right. simpl in Ht. now rewrite <- Ht.
Qed.

(** X12: [POST] reads the file at most once per request and never once the
    index is cached: a store that holds an index comes back unchanged, a
    store that holds none comes back unchanged or with one more read and
    the index of the rows just read (or still none when that read threw).
    What the completion calls return has no part in it. *)
Theorem POST_store_effect (req : Request) (st : Store) :
  (forall index, PATH_INDEX st = Some index -> snd (POST req st) = st)
  /\ (PATH_INDEX st = None ->
      snd (POST req st) = st
      \/ snd (POST req st)
         = {| PATH_INDEX := match readMetaCsv (reads st) with
                            | Ok rows => Some (build_index rows)
                            | Throw _ => None
                            end;
              reads := S (reads st) |})
  /\ reads st <= reads (snd (POST req st)) <= S (reads st).
Proof.
  destruct (loadPathIndex_store st) as [Hhit Hmiss].
  pose proof (POST_store req st) as Hpost.
  split; [|split].
  - intros index Hc. destruct Hpost as [->| ->]; [reflexivity|].
    now rewrite (Hhit index Hc).
  - intros Hc. destruct Hpost as [->| ->]; [now left|right]. now apply Hmiss.
  - destruct Hpost as [->| ->]; [lia|].
    destruct (PATH_INDEX st) as [index|] eqn:Hc.
    + rewrite (Hhit index eq_refl). simpl. lia.
    + rewrite (Hmiss eq_refl). simpl. lia.
Qed.

(** X13: when the file cannot be read, a request with a question is
    answered with the generic 500 and nothing is cached, so the request
    after it reads the file again and, if that read succeeds, loads the
    index. *)
Theorem unreadable_file_is_500_and_retried
    (req : Request) (st : Store) (userScenario : string) (e : Error) :
  apiKey_missing = false ->
  userScenario_of req = Ok userScenario ->
  JS.truthy (question_of userScenario) = true ->
  PATH_INDEX st = None ->
  readMetaCsv (reads st) = Throw e ->
  POST req st
  = ({| status := 500;
        advice := "Server error while generating answer. Check logs & environment variables." |},
     {| PATH_INDEX := None; reads := S (reads st) |})
  /\ forall rows,
       readMetaCsv (S (reads st)) = Ok rows ->
       loadPathIndex {| PATH_INDEX := None; reads := S (reads st) |}
       = (Ok (build_index rows),
          {| PATH_INDEX := Some (build_index rows); reads := S (S (reads st)) |}).
Proof.
  intros Hk Hu Hq Hc He. split.
  - unfold POST. rewrite (POST_try_question req st userScenario Hk Hu), Hq. cbn [negb].
    unfold topPathCandidates, loadPathIndex. rewrite Hc, He. reflexivity.
  - intros rows Hrows. unfold loadPathIndex. cbn [PATH_INDEX reads].
    now rewrite Hrows.
Qed.

(** X14: when the file has no row with a non-empty trimmed path and
    content, a request with a question is answered 200 with the
    no-content advisory, without a completion call; the empty index is
    cached like any other, so every later request with a question gets the
    same answer and the file is not read again. *)
Theorem empty_corpus_is_200_and_cached
    (req req' : Request) (st : Store) (u u' : string) (rows : list Row) :
  apiKey_missing = false ->
  userScenario_of req = Ok u ->
  JS.truthy (question_of u) = true ->
  userScenario_of req' = Ok u' ->
  JS.truthy (question_of u') = true ->
  PATH_INDEX st = None ->
  readMetaCsv (reads st) = Ok rows ->
  filter row_usable rows = [] ->
  POST req st
  = ({| status := 200;
        advice := "No content available yet. Ensure public/data/meta.csv exists with Path and Content rows." |},
     {| PATH_INDEX := Some []; reads := S (reads st) |})
  /\ POST req' {| PATH_INDEX := Some []; reads := S (reads st) |}
     = ({| status := 200;
           advice := "No content available yet. Ensure public/data/meta.csv exists with Path and Content rows." |},
        {| PATH_INDEX := Some []; reads := S (reads st) |}).
Proof.
  intros Hk Hu Hq Hu' Hq' Hc Hrows Hnone. split.
  - unfold POST. rewrite (POST_try_question req st u Hk Hu), Hq. cbn [negb].
    unfold topPathCandidates, loadPathIndex.
    rewrite Hc, Hrows, (build_index_empty rows Hnone). reflexivity.
  - unfold POST. rewrite (POST_try_question req' _ u' Hk Hu'), Hq'. reflexivity.
Qed.

Lemma POST_status_cases (req : Request) (st : Store) :
  (status (fst (POST req st)) = 200
   \/ status (fst (POST req st)) = 400
   \/ status (fst (POST req st)) = 500)
  /\ (status (fst (POST req st)) = 400
      <-> apiKey_missing = false
          /\ exists userScenario,
               userScenario_of req = Ok userScenario
               /\ JS.truthy (question_of userScenario) = false).
Proof.
  unfold POST, POST_try. destruct apiKey_missing.
  { simpl. split; [auto|]. split; [discriminate|]. intros [Hf _]. discriminate. }
  destruct (userScenario_of req) as [u|e].
  2:{ simpl. split; [auto|]. split; [discriminate|].
      intros [_ [u' [Hu' _]]]. discriminate. }
  destruct (JS.truthy (question_of u)) eqn:Hq; cbn [negb].
  2:{ simpl. split; [auto|]. split; [|reflexivity].
      intros _. split; [reflexivity|]. exists u. auto. }
  assert (Hnot : forall u', Ok u = Ok u' -> JS.truthy (question_of u') = false -> False).
  { intros u' Heq Hf. inversion Heq; subst. congruence. }
  destruct (topPathCandidates (question_of u) PREFILTER_TOP_K st) as [[ranked|e] st'].
  - destruct (answer_from (question_of u) ranked) as [resp|e] eqn:Hans; simpl.
    + rewrite (answer_from_status _ _ _ Hans). split; [auto|].
      split; [discriminate|]. intros [_ [u' [Hu' Hf]]]. exfalso. eauto.
    + split; [auto|]. split; [discriminate|].
      intros [_ [u' [Hu' Hf]]]. exfalso. eauto.
  - simpl. split; [auto|]. split; [discriminate|].
    intros [_ [u' [Hu' Hf]]]. exfalso. eauto.
Qed.

(** X15: [POST] answers 200, 400 or 500, and it answers 400 exactly when
    the key is configured, the body yields a string and the question cut
    and trimmed from it is empty. *)
Theorem POST_status (req : Request) (st : Store) :
  (status (fst (POST req st)) = 200
   \/ status (fst (POST req st)) = 400
   \/ status (fst (POST req st)) = 500)
  /\ (status (fst (POST req st)) = 400
      <-> apiKey_missing = false
          /\ exists userScenario,
               userScenario_of req = Ok userScenario
               /\ JS.truthy (question_of userScenario) = false).
Proof.
  destruct (POST_status_cases req st) as [Hthree Hiff].
  split; [exact Hthree|exact Hiff].
Qed.

(** X16: what the message input sends is never an empty question.  When
    [submit] hands a value to [onSend], that value is the field's text
    trimmed, it is not empty and the field is cleared; a request whose body
    carries it as [userScenario] is, with the key configured, never
    answered 400, and when the value has at most 1000 characters the
    question scored and prompted is that value unchanged. *)
Theorem submitted_value_is_a_question
    (text value field : string) (req : Request) (st : Store) :
  submit text = (Some value, field) ->
  JSON_parse (body_text req) = Ok (JObject [("userScenario", JString value)]) ->
  apiKey_missing = false ->
  value = JS.trim text
  /\ value <> EmptyString
  /\ field = EmptyString
  /\ JS.truthy (question_of value) = true
  /\ (String.length value <= 1000 -> question_of value = value)
  /\ status (fst (POST req st)) <> 400.
Proof.
  intros Hsub Hbody Hk. unfold submit in Hsub.
  destruct (JS.truthy (JS.trim text)) eqn:Ht; cbn [negb] in Hsub; [|discriminate].
  inversion Hsub; subst. clear Hsub.
  assert (Hne : JS.trim text <> EmptyString).
  { intros Heq. rewrite Heq in Ht. discriminate. }
  pose proof (question_of_trimmed (JS.trim text) (trim_idem text) Hne) as Hq.
  split; [reflexivity|]. split; [exact Hne|]. split; [reflexivity|].
  split; [exact Hq|]. split.
  - intros Hlen. unfold question_of, MAX_QUESTION_LEN.
    rewrite slice0_all by exact Hlen. apply trim_idem.
  - intros H400. apply POST_status_cases in H400.
    destruct H400 as [_ [u [Hu Hf]]].
    unfold userScenario_of in Hu. rewrite Hbody in Hu.
    cbn in Hu. destruct (JS.trim text); inversion Hu; subst; congruence.
Qed.

End MoreRouteFacts.

Lemma unreadable_file_witness :
  POST (P := Demo.platform) (H := Demo.unreadable) (Demo.ask "hardware revenue") Demo.cold
  = ({| status := 500;
        advice := "Server error while generating answer. Check logs & environment variables." |},
     {| PATH_INDEX := None; reads := 1 |}).
Proof.
  apply (unreadable_file_is_500_and_retried
           (P := Demo.platform) (H := Demo.unreadable)
           (Demo.ask "hardware revenue") Demo.cold "hardware revenue"
           (HostError "ENOENT"));
    reflexivity.
Defined.

Lemma empty_corpus_witness :
  POST (P := Demo.platform) (H := Demo.blank_file) (Demo.ask "hardware revenue") Demo.cold
  = ({| status := 200;
        advice := "No content available yet. Ensure public/data/meta.csv exists with Path and Content rows." |},
     {| PATH_INDEX := Some []; reads := 1 |}).
Proof.
  apply (empty_corpus_is_200_and_cached
           (P := Demo.platform) (H := Demo.blank_file)
           (Demo.ask "hardware revenue") (Demo.ask "  hardware revenue ") Demo.cold
           "hardware revenue" "  hardware revenue "
           [Demo.row "Item 1 Business" "   "; Demo.row "" "orphan text"]);
    reflexivity.
Defined.

Lemma submitted_value_witness :
  status (fst (POST (P := Demo.platform) (H := Demo.host (Some "sk-test") None)
                 (Demo.ask "hardware revenue") Demo.cold)) <> 400.
Proof.
  apply (submitted_value_is_a_question
           (P := Demo.platform) (H := Demo.host (Some "sk-test") None)
           "  hardware revenue " "hardware revenue" EmptyString
           (Demo.ask "hardware revenue") Demo.cold);
    reflexivity.
Defined.
